(** * Rail-gun magnetostatics notebook (gun.ipynb): field and force evaluators

    The notebook evaluates closed-form wire-field formulas with numpy.  The
    development below reads every float as a real number and keeps the two
    places where numpy leaves the reals explicit: [np.sqrt] of a negative
    number (nan) and a division by zero (inf or nan).  A scalar that is nan
    or infinite is [None]; an array whose entries are nan or infinite is
    [None] as well (in the notebook a non-finite scalar always multiplies a
    whole array, so either all entries are finite or none is). *)

From Stdlib Require Import Reals Lra Lia List Psatz.
Import ListNotations.
Open Scope R_scope.

(** ** numpy scalars and 3-element arrays *)

Module Np.

(** A float: [Some x] is the finite value [x], [None] is nan or +-inf. *)
Definition fl := option R.

(** A 3-element array with finite entries; [c0 r], [c1 r], [c2 r] are
    [r[0]], [r[1]], [r[2]]. *)
Record vec : Type := mkvec { c0 : R; c1 : R; c2 : R }.

(** An array as numpy returns it: finite, or filled with nan / inf. *)
Definition arr := option vec.

Definition bind {A B : Type} (m : option A) (k : A -> option B) : option B :=
  match m with
  | Some a => k a
  | None => None
  end.

Notation "x <- m ;; k" := (bind m (fun x => k))
  (at level 61, m at next level, right associativity).

Definition zeros : vec := mkvec 0 0 0.

Definition vadd (a b : vec) : vec :=
  mkvec (c0 a + c0 b) (c1 a + c1 b) (c2 a + c2 b).

(** [a * k] for an array [a] and a finite scalar [k]. *)
Definition scale (a : vec) (k : R) : vec :=
  mkvec (c0 a * k) (c1 a * k) (c2 a * k).

(** [np.divide(a, k)] and [a / k], for a scalar [k] known to be nonzero. *)
Definition divide (a : vec) (k : R) : vec :=
  mkvec (c0 a / k) (c1 a / k) (c2 a / k).

Definition dot (a b : vec) : R :=
  c0 a * c0 b + c1 a * c1 b + c2 a * c2 b.

(** [np.cross(a, b)] on finite arrays. *)
Definition cross (a b : vec) : vec :=
  mkvec (c1 a * c2 b - c2 a * c1 b)
        (c2 a * c0 b - c0 a * c2 b)
        (c0 a * c1 b - c1 a * c0 b).

(** [np.linalg.norm(a)] on a finite array. *)
Definition norm (a : vec) : R :=
  sqrt (c0 a * c0 a + c1 a * c1 a + c2 a * c2 a).

(** [np.sqrt(x)]: nan below zero. *)
Definition np_sqrt (x : R) : fl :=
  if Rle_dec 0 x then Some (sqrt x) else None.

(** [x / y] for a numpy float [y]: inf or nan when [y] is zero. *)
Definition np_div (x y : R) : fl :=
  if Req_EM_T y 0 then None else Some (x / y).

(** [a * k] where the scalar [k] may be non-finite. *)
Definition np_scale (a : vec) (k : fl) : arr :=
  x <- k ;; Some (scale a x).

(** [np.add(a, b)]. *)
Definition np_add (a b : arr) : arr :=
  x <- a ;; y <- b ;; Some (vadd x y).

(** [np.cross(a, b)] with a finite first and an arbitrary second argument,
    and the other way round. *)
Definition np_cross_r (a : vec) (b : arr) : arr :=
  y <- b ;; Some (cross a y).

Definition np_cross_l (a : arr) (b : vec) : arr :=
  x <- a ;; Some (cross x b).

(** [np.linalg.norm(a)]. *)
Definition np_norm (a : arr) : fl :=
  x <- a ;; Some (norm x).

(** [a[1]], [a[2]] and [a[0]] of a possibly non-finite array. *)
Definition at0 (a : arr) : fl := option_map c0 a.
Definition at1 (a : arr) : fl := option_map c1 a.
Definition at2 (a : arr) : fl := option_map c2 a.

(** [x + y] on floats. *)
Definition fl_add (x y : fl) : fl :=
  a <- x ;; b <- y ;; Some (a + b).

(** [np.linspace(start, stop, num)] for [num >= 2]: [num] evenly spaced
    samples, both ends included. *)
Definition linspace (start stop : R) (num : nat) : list R :=
  map (fun i => start + INR i * ((stop - start) / INR (num - 1))) (seq 0 num).

End Np.

Import Np.

(** ** The notebook's module-level state *)

(** The globals [dist_btwn_wires], [rail_length], [ILeft], [IRight],
    [IProj]; every field evaluation reads them. *)
Record Globals : Type := mkGlobals {
  dist_btwn_wires : R;
  rail_length : R;
  ILeft : vec;
  IRight : vec;
  IProj : vec
}.

(** The state after the first code cell has run. *)
Definition initial : Globals :=
  mkGlobals 3 4 (mkvec (-1) 0 0) (mkvec 1 0 0) (mkvec 0 1 0).

Definition updateCurrent (i_ : R) (g : Globals) : Globals :=
  mkGlobals (dist_btwn_wires g) (rail_length g)
            (mkvec (- i_) 0 0) (mkvec i_ 0 0) (mkvec 0 i_ 0).

Definition set_dist_btwn_wires (d_ : R) (g : Globals) : Globals :=
  mkGlobals d_ (rail_length g) (ILeft g) (IRight g) (IProj g).

Definition set_rail_length (l_ : R) (g : Globals) : Globals :=
  mkGlobals (dist_btwn_wires g) l_ (ILeft g) (IRight g) (IProj g).

(** ** Field of each segment (first code cell) *)

(** The end-correction factor [1 + L / np.sqrt(L**2 + d)]. *)
Definition end_factor (L d : R) : fl :=
  s <- np_sqrt (L ^ 2 + d) ;; q <- np_div L s ;; Some (1 + q).

Definition BFieldLeft (g : Globals) (r : vec) : arr :=
  let reff := mkvec 0 (c1 r) (c2 r) in
  let rnorm := norm reff in
  if Req_EM_T rnorm 0 then Some zeros
  else
    let rhat := divide reff rnorm in
    np_scale (divide (cross (ILeft g) rhat) rnorm)
             (end_factor (rail_length g) (c1 r)).

Definition BFieldRight (g : Globals) (r : vec) : arr :=
  let reff := mkvec 0 (c1 r - dist_btwn_wires g) (c2 r) in
  let rnorm := norm reff in
  if Req_EM_T rnorm 0 then Some zeros
  else
    let rhat := divide reff rnorm in
    np_scale (divide (cross (IRight g) rhat) rnorm)
             (end_factor (rail_length g) (dist_btwn_wires g - c1 r)).

Definition BFieldProj (g : Globals) (r : vec) : arr :=
  let reff := mkvec (c0 r) 0 0 in
  let rnorm := norm reff in
  if Req_EM_T rnorm 0 then Some zeros
  else
    let rhat := divide reff rnorm in
    np_scale (divide (cross (IProj g) rhat) rnorm)
             (end_factor (dist_btwn_wires g) (c0 r)).

(** The displacement each function builds before taking its norm. *)
Definition reffLeft (r : vec) : vec := mkvec 0 (c1 r) (c2 r).
Definition reffRight (g : Globals) (r : vec) : vec :=
  mkvec 0 (c1 r - dist_btwn_wires g) (c2 r).
Definition reffProj (r : vec) : vec := mkvec (c0 r) 0 0.

(** The three segments, and the function the notebook has for each. *)
Inductive Segment : Type := LeftRail | RightRail | Projectile.

Definition BField (seg : Segment) (g : Globals) (r : vec) : arr :=
  match seg with
  | LeftRail => BFieldLeft g r
  | RightRail => BFieldRight g r
  | Projectile => BFieldProj g r
  end.

Definition current (seg : Segment) (g : Globals) : vec :=
  match seg with
  | LeftRail => ILeft g
  | RightRail => IRight g
  | Projectile => IProj g
  end.

Definition reff (seg : Segment) (g : Globals) (r : vec) : vec :=
  match seg with
  | LeftRail => reffLeft r
  | RightRail => reffRight g r
  | Projectile => reffProj r
  end.

(** The length [L] and the component [d] that each function passes to the
    end-correction factor. *)
Definition factor_L (seg : Segment) (g : Globals) : R :=
  match seg with
  | LeftRail | RightRail => rail_length g
  | Projectile => dist_btwn_wires g
  end.

Definition factor_d (seg : Segment) (g : Globals) (r : vec) : R :=
  match seg with
  | LeftRail => c1 r
  | RightRail => dist_btwn_wires g - c1 r
  | Projectile => c0 r
  end.

(** ** Sweeps (the plotting callbacks, up to the call of the renderer) *)

(** One arrow handed to [plt.quiver]: position and the two plotted
    components. *)
Record arrow : Type := mkarrow { ax : R; ay : R; au : fl; av : fl }.

(** The points visited by [for i in xrange: for j in yrange:], in order,
    as [[i, j, 0]]. *)
Definition grid_xy (xrange yrange : list R) : list vec :=
  flat_map (fun i => map (fun j => mkvec i j 0) yrange) xrange.

(** The same for [for j in yrange: for k in zrange:], as [[0, j, k]]. *)
Definition grid_yz (yrange zrange : list R) : list vec :=
  flat_map (fun j => map (fun k => mkvec 0 j k) zrange) yrange.

(** (a) combined rail field on a y-z grid. *)
Definition plotRailBField (d_ i_ : R) (g : Globals) : Globals * list arrow :=
  let g := updateCurrent i_ (set_dist_btwn_wires d_ g) in
  let yrange := linspace (-1) (dist_btwn_wires g + 1) 10 in
  let zrange := linspace (- dist_btwn_wires g / 2) (dist_btwn_wires g / 2) 10 in
  (g, map (fun p =>
             let Batjk := np_add (BFieldLeft g p) (BFieldRight g p) in
             mkarrow (c1 p) (c2 p) (at1 Batjk) (at2 Batjk))
          (grid_yz yrange zrange)).

Definition BFieldOnProjectile (g : Globals) (r : R) : arr :=
  np_add (BFieldLeft g (mkvec 0 r 0)) (BFieldRight g (mkvec 0 r 0)).

(** (b) the locals of [plotProjectileInfo] when it returns: the abscissae
    [r], the field magnitudes [b], the force magnitudes [f] and the
    accumulator [F_total]. *)
Record projectileInfo : Type := mkInfo {
  info_r : list R;
  info_b : list fl;
  info_f : list fl;
  info_F_total : fl
}.

Definition plotProjectileInfo (d_ i_ : R) (g : Globals)
  : Globals * projectileInfo :=
  let g := updateCurrent i_ (set_dist_btwn_wires d_ g) in
  let slices := 100%nat in
  let step := dist_btwn_wires g / INR slices in
  let r := linspace 0 (dist_btwn_wires g) slices in
  let b := map (fun i => np_norm (BFieldOnProjectile g i)) r in
  let f := map (fun i => np_norm (np_cross_l (BFieldOnProjectile g i) (IProj g))) r in
  let F_total :=
    fold_left (fun acc f_r => fl_add acc (x <- f_r ;; Some (x * step))) f (Some 0) in
  (g, mkInfo r b f F_total).

(** The functions that [plotOpposingCurrentForces] defines in its own
    body; they shadow the module-level ones inside that callback only. *)
Module OpposingLocal.

Definition BFieldLeft (g : Globals) (r : vec) : arr :=
  let reff := mkvec 0 (c1 r) (c2 r) in
  let rnorm := norm reff in
  if Req_EM_T rnorm 0 then Some zeros
  else
    let rhat := divide reff rnorm in
    Some (divide (cross (ILeft g) rhat) rnorm).

Definition BFieldRight (g : Globals) (r : vec) : arr :=
  let reff := mkvec 0 (c1 r - dist_btwn_wires g) (c2 r) in
  let rnorm := norm reff in
  if Req_EM_T rnorm 0 then Some zeros
  else
    let rhat := divide reff rnorm in
    Some (divide (cross (IRight g) rhat) rnorm).

End OpposingLocal.

(** The arrow appended for a sample [[i, j, 0]] and its force [Fatxy]. *)
Definition force_arrow (p : vec) (Fatxy : arr) : arrow :=
  mkarrow (c0 p) (c1 p) (at0 Fatxy) (at1 Fatxy).

(** The field values the two loops of a repulsion plot feed to
    [np.cross]: on the left rail ([y = 0]) and on the right rail
    ([y = dist_btwn_wires]). *)
Definition left_rail_points (g : Globals) : list vec :=
  grid_xy (linspace (rail_length g) 0 20) (linspace 0 0 10).

Definition right_rail_points (g : Globals) : list vec :=
  grid_xy (linspace (rail_length g) 0 20)
          (linspace (dist_btwn_wires g) (dist_btwn_wires g) 10).

(** (c) force on each rail from the opposing rail. *)
Definition plotOpposingCurrentForces (d_ l_ i_ : R) (g : Globals)
  : Globals * list arrow :=
  let g := updateCurrent i_ (set_rail_length l_ (set_dist_btwn_wires d_ g)) in
  (g,
   map (fun p => force_arrow p (np_cross_r (ILeft g) (OpposingLocal.BFieldRight g p)))
       (left_rail_points g)
   ++
   map (fun p => force_arrow p (np_cross_r (IRight g) (OpposingLocal.BFieldLeft g p)))
       (right_rail_points g)).

(** (d) force on each rail from the projectile. *)
Definition plotProjectileRepulsionForce (d_ l_ i_ : R) (g : Globals)
  : Globals * list arrow :=
  let g := updateCurrent i_ (set_rail_length l_ (set_dist_btwn_wires d_ g)) in
  (g,
   map (fun p => force_arrow p (np_cross_r (ILeft g) (BFieldProj g p)))
       (left_rail_points g)
   ++
   map (fun p => force_arrow p (np_cross_r (IRight g) (BFieldProj g p)))
       (right_rail_points g)).

(** (e) summed force magnitudes along the left rail: the plotted [x] and
    [y]. *)
Definition calcTotalRailRepulsion (d_ l_ i_ : R) (g : Globals)
  : Globals * (list R * list fl) :=
  let g := updateCurrent i_ (set_rail_length l_ (set_dist_btwn_wires d_ g)) in
  let x := linspace (rail_length g) 0 100 in
  let y := map (fun i =>
                  fl_add (np_norm (np_cross_r (ILeft g) (BFieldProj g (mkvec i 0 0))))
                         (np_norm (np_cross_r (ILeft g) (BFieldRight g (mkvec i 0 0)))))
               x in
  (g, (x, y)).

(** ** The specification's wording of the field evaluator *)

Module Spec.

(** [effectivePoint]: the component of [point] perpendicular to the
    segment's axis; the axis-aligned coordinate is zeroed (x for the rails,
    y for the projectile) and the segment's transverse offset is
    subtracted ([railSeparation] from y for the right rail). *)
Definition effectivePoint (seg : Segment) (g : Globals) (point : vec) : vec :=
  match seg with
  | LeftRail => mkvec 0 (c1 point) (c2 point)
  | RightRail => mkvec 0 (c1 point - dist_btwn_wires g) (c2 point)
  | Projectile => mkvec (c0 point) 0 (c2 point)
  end.

(** [rHat = effectivePoint / r]. *)
Definition rHat (effectivePoint : vec) : vec :=
  divide effectivePoint (norm effectivePoint).

(** The infinite-wire field [cross(currentVector, rHat) / r]. *)
Definition infiniteWire (currentVector effectivePoint : vec) : vec :=
  divide (cross currentVector (rHat effectivePoint)) (norm effectivePoint).

(** The end-correction factor [(1 + L / sqrt(L² + d))]; it has no value
    where the root or the quotient has none. *)
Definition endCorrection (L d : R) : fl :=
  if Rle_dec 0 (L * L + d)
  then if Req_EM_T (sqrt (L * L + d)) 0 then None
       else Some (1 + L / sqrt (L * L + d))
  else None.

(** [fieldAt] away from the axis: the infinite-wire field scaled by the
    end-correction factor. *)
Definition fieldAt (currentVector effectivePoint : vec) (L d : R) : arr :=
  match endCorrection L d with
  | Some k => Some (scale (infiniteWire currentVector effectivePoint) k)
  | None => None
  end.

End Spec.

(** ** Vocabulary for the statements about sweeps *)

(** Magnitude, per unit current, of one rail's field at distance [r] from
    it on the projectile's axis: [(1 + L / sqrt(L² + r)) / r]. *)
Definition rail_term (L r : R) : R := (1 + L / sqrt (L ^ 2 + r)) / r.

(** Both rails together, a distance [D] apart. *)
Definition both_rails (L D r : R) : R := rail_term L r + rail_term L (D - r).

(** Order on plotted values; a non-finite value compares with nothing. *)
Definition fl_le (x y : fl) : Prop :=
  match x, y with
  | Some a, Some b => a <= b
  | _, _ => False
  end.

Definition non_increasing_on (b : list fl) (lo hi : nat) : Prop :=
  forall i j : nat, (lo <= i)%nat -> (i <= j)%nat -> (j <= hi)%nat ->
    fl_le (nth j b None) (nth i b None).

Definition non_decreasing_on (b : list fl) (lo hi : nat) : Prop :=
  forall i j : nat, (lo <= i)%nat -> (i <= j)%nat -> (j <= hi)%nat ->
    fl_le (nth i b None) (nth j b None).

(** A sequence that falls to a single minimum and rises from it, between
    the indices [lo] and [hi]. *)
Definition valley (b : list fl) (lo hi : nat) : Prop :=
  exists m : nat, (lo <= m)%nat /\ (m <= hi)%nat /\
    non_increasing_on b lo m /\ non_decreasing_on b m hi.

(** ** Elementary facts about arrays *)

Lemma sum_sqr_nonneg (a : vec) : 0 <= c0 a * c0 a + c1 a * c1 a + c2 a * c2 a.
Proof. nra. Qed.

Lemma norm_sqr (a : vec) :
  norm a * norm a = c0 a * c0 a + c1 a * c1 a + c2 a * c2 a.
Proof. unfold norm. apply sqrt_sqrt, sum_sqr_nonneg. Qed.

Lemma norm_zero_iff (a : vec) :
  norm a = 0 <-> c0 a = 0 /\ c1 a = 0 /\ c2 a = 0.
Proof.
  split.
  - intros H. pose proof (norm_sqr a) as E. rewrite H in E.
    repeat split; nra.
  - intros (H0 & H1 & H2). unfold norm. rewrite H0, H1, H2.
    replace (0 * 0 + 0 * 0 + 0 * 0) with 0 by ring. apply sqrt_0.
Qed.

Lemma norm_zeros : norm zeros = 0.
Proof. apply norm_zero_iff. simpl. repeat split; reflexivity. Qed.

Lemma norm_axis_x (x : R) : norm (mkvec x 0 0) = Rabs x.
Proof.
  unfold norm; simpl.
  replace (x * x + 0 * 0 + 0 * 0) with (Rsqr x) by (unfold Rsqr; ring).
  apply sqrt_Rsqr_abs.
Qed.

Lemma norm_axis_y (y : R) : norm (mkvec 0 y 0) = Rabs y.
Proof.
  unfold norm; simpl.
  replace (0 * 0 + y * y + 0 * 0) with (Rsqr y) by (unfold Rsqr; ring).
  apply sqrt_Rsqr_abs.
Qed.

Lemma norm_axis_z (z : R) : norm (mkvec 0 0 z) = Rabs z.
Proof.
  unfold norm; simpl.
  replace (0 * 0 + 0 * 0 + z * z) with (Rsqr z) by (unfold Rsqr; ring).
  apply sqrt_Rsqr_abs.
Qed.

Lemma norm_scale (a : vec) (k : R) : norm (scale a k) = norm a * Rabs k.
Proof.
  unfold norm, scale; simpl.
  replace (c0 a * k * (c0 a * k) + c1 a * k * (c1 a * k) + c2 a * k * (c2 a * k))
    with ((c0 a * c0 a + c1 a * c1 a + c2 a * c2 a) * Rsqr k)
    by (unfold Rsqr; ring).
  rewrite sqrt_mult_alt by apply sum_sqr_nonneg.
  now rewrite sqrt_Rsqr_abs.
Qed.

(** ** The end-correction factor *)

Lemma end_factor_some (L d : R) :
  0 < L ^ 2 + d -> end_factor L d = Some (1 + L / sqrt (L ^ 2 + d)).
Proof.
  intros H. unfold end_factor, np_sqrt, np_div, bind.
  destruct (Rle_dec 0 (L ^ 2 + d)) as [_|n]; [|lra].
  destruct (Req_EM_T (sqrt (L ^ 2 + d)) 0) as [e|_]; [|reflexivity].
  pose proof (sqrt_lt_R0 _ H). lra.
Qed.

Lemma end_factor_none (L d : R) :
  L ^ 2 + d <= 0 -> end_factor L d = None.
Proof.
  intros H. unfold end_factor, np_sqrt, np_div, bind.
  destruct (Rle_dec 0 (L ^ 2 + d)) as [l|_]; [|reflexivity].
  assert (E : L ^ 2 + d = 0) by lra. rewrite E, sqrt_0.
  destruct (Req_EM_T 0 0) as [_|n]; [reflexivity|contradiction].
Qed.

Lemma end_factor_finite_iff (L d : R) :
  (exists k, end_factor L d = Some k) <-> 0 < L ^ 2 + d.
Proof.
  split.
  - intros [k Hk]. destruct (Rlt_le_dec 0 (L ^ 2 + d)) as [l|l]; [exact l|].
    rewrite end_factor_none in Hk by exact l. discriminate.
  - intros H. eexists. now apply end_factor_some.
Qed.

Lemma end_factor_spec (L d : R) : end_factor L d = Spec.endCorrection L d.
Proof.
  unfold Spec.endCorrection.
  replace (L * L + d) with (L ^ 2 + d) by ring.
  destruct (Rle_dec 0 (L ^ 2 + d)) as [l|n].
  - destruct (Req_EM_T (sqrt (L ^ 2 + d)) 0) as [e|n].
    + apply end_factor_none.
      destruct (Rlt_le_dec 0 (L ^ 2 + d)) as [h|h]; [|exact h].
      pose proof (sqrt_lt_R0 _ h). lra.
    + apply end_factor_some.
      destruct (Rlt_le_dec 0 (L ^ 2 + d)) as [h|h]; [exact h|].
      exfalso. apply n. replace (L ^ 2 + d) with 0 by lra. apply sqrt_0.
  - apply end_factor_none. lra.
Qed.

(** ** Unfolding the three field functions *)

Lemma BField_on_axis (seg : Segment) (g : Globals) (r : vec) :
  norm (reff seg g r) = 0 -> BField seg g r = Some zeros.
Proof.
  intros H.
  destruct seg; simpl in *;
    unfold BFieldLeft, BFieldRight, BFieldProj, reffLeft, reffRight, reffProj in *;
    destruct (Req_EM_T _ 0); congruence.
Qed.

Lemma BField_off_axis (seg : Segment) (g : Globals) (r : vec) :
  norm (reff seg g r) <> 0 ->
  BField seg g r =
  np_scale (divide (cross (current seg g)
                          (divide (reff seg g r) (norm (reff seg g r))))
                   (norm (reff seg g r)))
           (end_factor (factor_L seg g) (factor_d seg g r)).
Proof.
  intros H.
  destruct seg; simpl in *;
    unfold BFieldLeft, BFieldRight, BFieldProj, reffLeft, reffRight, reffProj in *;
    destruct (Req_EM_T _ 0); congruence.
Qed.

(** ** The field evaluator against the specification *)

(** C1, as stated, fails for the projectile: at [(0, 0, 1)] the point is at
    distance 1 from the projectile's axis (the y-axis), the stated formula
    with [effectivePoint = (0, 0, 1)] gives a vector with a nonzero
    x-component, and [BFieldProj] returns the zero vector. *)
Lemma C1_counterexample :
  let p := mkvec 0 0 1 in
  norm (Spec.effectivePoint Projectile initial p) <> 0 /\
  BField Projectile initial p = Some zeros /\
  BField Projectile initial p <>
  Spec.fieldAt (current Projectile initial)
               (Spec.effectivePoint Projectile initial p)
               (factor_L Projectile initial) (factor_d Projectile initial p).
Proof.
  simpl.
  assert (N : norm (mkvec 0 0 1) = 1).
  { rewrite norm_axis_z. apply Rabs_R1. }
  assert (Z : BFieldProj initial (mkvec 0 0 1) = Some zeros).
  { apply (BField_on_axis Projectile). simpl. unfold reffProj. simpl.
    apply norm_zeros. }
  split; [rewrite N; lra|]. split; [exact Z|].
  rewrite Z. unfold Spec.fieldAt. rewrite <- end_factor_spec.
  rewrite end_factor_some by lra.
  unfold Spec.infiniteWire, Spec.rHat. rewrite N.
  unfold scale, divide, cross, zeros; simpl.
  intros E. injection E as E0 _ _.
  set (s := sqrt _) in E0.
  assert (S : 0 < s) by (apply sqrt_lt_R0; lra).
  assert (Q : 0 < 3 / s) by (apply Rdiv_lt_0_compat; lra).
  replace ((1 * (1 / 1) - 0 * (0 / 1)) / 1 * (1 + 3 / s))
    with (1 + 3 / s) in E0 by (field; lra).
  lra.
Qed.

(** C1 (amended): wherever the displacement built by the function is not
    zero, each of [BFieldLeft], [BFieldRight], [BFieldProj] returns
    [cross(currentVector, rHat) / r] scaled by [1 + L / sqrt(L² + d)].  For
    the rails the displacement is the specification's [effectivePoint]; for
    the projectile it keeps the x-coordinate only (y and z are both
    zeroed). *)
Theorem BField_refines_fieldAt (seg : Segment) (g : Globals) (r : vec) :
  norm (reff seg g r) <> 0 ->
  BField seg g r =
  Spec.fieldAt (current seg g) (reff seg g r) (factor_L seg g) (factor_d seg g r)
  /\ reff seg g r =
     match seg with
     | Projectile => mkvec (c0 r) 0 0
     | _ => Spec.effectivePoint seg g r
     end.
Proof.
  intros H. split.
  - rewrite (BField_off_axis seg g r H).
    unfold Spec.fieldAt, Spec.infiniteWire, Spec.rHat.
    rewrite <- end_factor_spec.
    now destruct (end_factor (factor_L seg g) (factor_d seg g r)).
  - now destruct seg.
Qed.

Lemma BField_refines_fieldAt_witness :
  let r := mkvec 7 1 0 in
  norm (reff RightRail initial r) <> 0 /\
  BField RightRail initial r =
  Spec.fieldAt (current RightRail initial) (reff RightRail initial r)
               (factor_L RightRail initial) (factor_d RightRail initial r).
Proof.
  assert (N : norm (reff RightRail initial (mkvec 7 1 0)) <> 0).
  { simpl. unfold reffRight; simpl. rewrite norm_axis_y.
    apply Rabs_no_R0. lra. }
  split; [exact N|].
  exact (proj1 (BField_refines_fieldAt RightRail initial (mkvec 7 1 0) N)).
Defined.

(** C2: a point at distance zero from a segment's axis gets exactly the
    zero vector from that segment's function; nothing is divided by the
    zero norm. *)
Theorem BField_zero_at_zero_distance (seg : Segment) (g : Globals) (r : vec) :
  norm (Spec.effectivePoint seg g r) = 0 -> BField seg g r = Some zeros.
Proof.
  intros H. apply BField_on_axis.
  apply norm_zero_iff in H. apply norm_zero_iff.
  destruct seg; simpl in *; tauto.
Qed.

Lemma BField_zero_at_zero_distance_witness :
  norm (Spec.effectivePoint RightRail initial (mkvec 2 3 0)) = 0 /\
  BField RightRail initial (mkvec 2 3 0) = Some zeros.
Proof.
  assert (N : norm (Spec.effectivePoint RightRail initial (mkvec 2 3 0)) = 0).
  { apply norm_zero_iff; simpl. repeat split; lra. }
  split; [exact N|].
  exact (BField_zero_at_zero_distance RightRail initial (mkvec 2 3 0) N).
Defined.

(** C9: [BFieldProj] is the zero vector on the whole plane [x = 0], and
    its value is a function of the x-coordinate alone. *)
Theorem BFieldProj_x_only (g : Globals) (x y z y' z' : R) :
  BFieldProj g (mkvec 0 y z) = Some zeros /\
  BFieldProj g (mkvec x y z) = BFieldProj g (mkvec x y' z').
Proof.
  split.
  - apply (BField_on_axis Projectile). simpl. unfold reffProj; simpl.
    apply norm_zeros.
  - reflexivity.
Qed.

(** C10: [BFieldLeft] and [BFieldRight] do not depend on the x-coordinate
    of the query point. *)
Theorem BField_rails_x_invariant (g : Globals) (x x' y z : R) :
  BFieldLeft g (mkvec x y z) = BFieldLeft g (mkvec x' y z) /\
  BFieldRight g (mkvec x y z) = BFieldRight g (mkvec x' y z).
Proof. split; reflexivity. Qed.

(** ** Configuration updates *)

(** C8: every callback stores its arguments as they are, whatever their
    sign; the callbacks are total, there is no rejected input. *)
Theorem callbacks_store_inputs (d_ l_ i_ : R) (g : Globals) :
  updateCurrent i_ g =
    mkGlobals (dist_btwn_wires g) (rail_length g)
              (mkvec (- i_) 0 0) (mkvec i_ 0 0) (mkvec 0 i_ 0) /\
  fst (plotRailBField d_ i_ g) =
    mkGlobals d_ (rail_length g) (mkvec (- i_) 0 0) (mkvec i_ 0 0) (mkvec 0 i_ 0) /\
  fst (plotProjectileInfo d_ i_ g) =
    mkGlobals d_ (rail_length g) (mkvec (- i_) 0 0) (mkvec i_ 0 0) (mkvec 0 i_ 0) /\
  fst (plotOpposingCurrentForces d_ l_ i_ g) =
    mkGlobals d_ l_ (mkvec (- i_) 0 0) (mkvec i_ 0 0) (mkvec 0 i_ 0) /\
  fst (plotProjectileRepulsionForce d_ l_ i_ g) =
    mkGlobals d_ l_ (mkvec (- i_) 0 0) (mkvec i_ 0 0) (mkvec 0 i_ 0) /\
  fst (calcTotalRailRepulsion d_ l_ i_ g) =
    mkGlobals d_ l_ (mkvec (- i_) 0 0) (mkvec i_ 0 0) (mkvec 0 i_ 0).
Proof. repeat split. Qed.

(** ** Finiteness and direction of the returned field *)

Lemma np_scale_some (a : vec) (k : fl) :
  (exists v, np_scale a k = Some v) <-> (exists x, k = Some x).
Proof.
  destruct k as [x|]; simpl; split; intros [y Hy]; try discriminate; eauto.
Qed.

Lemma dot_cross_l (a b : vec) : dot (cross a b) a = 0.
Proof. unfold dot, cross; simpl; ring. Qed.

Lemma dot_cross_r (a b : vec) : dot (cross a b) b = 0.
Proof. unfold dot, cross; simpl; ring. Qed.

Lemma dot_scale_l (a b : vec) (k : R) : dot (scale a k) b = dot a b * k.
Proof. unfold dot, scale; simpl; ring. Qed.

Lemma dot_divide_l (a b : vec) (k : R) : dot (divide a k) b = dot a b / k.
Proof. unfold dot, divide, Rdiv; simpl; ring. Qed.

Lemma cross_divide_r (a b : vec) (k : R) : cross a (divide b k) = divide (cross a b) k.
Proof. unfold cross, divide, Rdiv; simpl; f_equal; ring. Qed.

(** C3, as stated, fails: with [railSeparation = 3] and [railLength = 4] the
    point [(0, -17, 0)] is at distance 17 from the left rail, the root in
    the end-correction factor is taken of [16 - 17], and no entry of the
    returned array is finite. *)
Lemma C3_counterexample :
  let p := mkvec 0 (-17) 0 in
  0 < dist_btwn_wires initial /\ 0 < rail_length initial /\
  norm (Spec.effectivePoint LeftRail initial p) <> 0 /\
  factor_d LeftRail initial p <= - (factor_L LeftRail initial) ^ 2 /\
  BField LeftRail initial p = None.
Proof.
  assert (N : norm (mkvec 0 (-17) 0) <> 0).
  { rewrite norm_axis_y. apply Rabs_no_R0. lra. }
  assert (B : BField LeftRail initial (mkvec 0 (-17) 0) = None).
  { rewrite (BField_off_axis LeftRail initial (mkvec 0 (-17) 0) N). simpl.
    rewrite end_factor_none by lra. reflexivity. }
  simpl. repeat split; try lra; try exact N. exact B.
Qed.

(** For any geometry: the returned array is finite exactly when the
    displacement built by the function is zero or [L² + d > 0]. *)
Lemma BField_finite_iff (seg : Segment) (g : Globals) (r : vec) :
  (exists v, BField seg g r = Some v) <->
  (norm (reff seg g r) = 0 \/ 0 < factor_L seg g ^ 2 + factor_d seg g r).
Proof.
  destruct (Req_EM_T (norm (reff seg g r)) 0) as [e|n].
  - rewrite (BField_on_axis seg g r e). split; eauto.
  - rewrite (BField_off_axis seg g r n), np_scale_some, end_factor_finite_iff.
    tauto.
Qed.

(** C3 (amended): for a strictly positive rail separation and rail length
    and a query point at nonzero distance from the segment's axis, the
    returned array has finite entries exactly when [L² + d > 0]; when
    [d <= -L²] the end-correction factor is nan or infinite and so is
    every entry. *)
Theorem BField_finite_positive_geometry (seg : Segment) (g : Globals) (r : vec) :
  0 < dist_btwn_wires g -> 0 < rail_length g ->
  norm (Spec.effectivePoint seg g r) <> 0 ->
  ((exists v, BField seg g r = Some v) <->
   0 < factor_L seg g ^ 2 + factor_d seg g r) /\
  (factor_d seg g r <= - factor_L seg g ^ 2 -> BField seg g r = None).
Proof.
  intros D0 L0 N.
  assert (I : (exists v, BField seg g r = Some v) <->
              0 < factor_L seg g ^ 2 + factor_d seg g r).
  { destruct (Req_EM_T (norm (reff seg g r)) 0) as [e|n].
    - rewrite (BField_on_axis seg g r e).
      assert (F : 0 < factor_L seg g ^ 2 + factor_d seg g r).
      { destruct seg; simpl in *; try contradiction.
        apply norm_zero_iff in e. simpl in e. destruct e as (e & _).
        rewrite e. nra. }
      split; eauto.
    - rewrite (BField_off_axis seg g r n), np_scale_some.
      apply end_factor_finite_iff. }
  split; [exact I|].
  intros H. destruct (BField seg g r) as [v|] eqn:E; [|reflexivity].
  assert (F : 0 < factor_L seg g ^ 2 + factor_d seg g r) by (apply I; eauto).
  lra.
Qed.

Lemma BField_finite_positive_geometry_witness :
  let p := mkvec 0 1 0 in
  0 < dist_btwn_wires initial /\ 0 < rail_length initial /\
  norm (Spec.effectivePoint LeftRail initial p) <> 0 /\
  exists v, BField LeftRail initial p = Some v.
Proof.
  assert (D0 : 0 < dist_btwn_wires initial) by (simpl; lra).
  assert (L0 : 0 < rail_length initial) by (simpl; lra).
  assert (N : norm (Spec.effectivePoint LeftRail initial (mkvec 0 1 0)) <> 0).
  { simpl. rewrite norm_axis_y, Rabs_R1. lra. }
  repeat (split; [assumption|]).
  apply (proj1 (BField_finite_positive_geometry LeftRail initial (mkvec 0 1 0) D0 L0 N)).
  simpl. lra.
Defined.

(** C5, as stated, fails for the projectile: at [(1, 0, 1)] the returned
    field is finite and not perpendicular to the displacement from the
    projectile's axis, [(1, 0, 1)]. *)
Lemma C5_counterexample :
  let p := mkvec 1 0 1 in
  norm (Spec.effectivePoint Projectile initial p) <> 0 /\
  exists v, BField Projectile initial p = Some v /\
            dot v (Spec.effectivePoint Projectile initial p) <> 0.
Proof.
  simpl. split.
  - intros H. apply norm_zero_iff in H. simpl in H. lra.
  - assert (N : norm (mkvec 1 0 0) = 1).
    { rewrite norm_axis_x. apply Rabs_R1. }
    assert (N' : norm (reff Projectile initial (mkvec 1 0 1)) <> 0).
    { simpl. unfold reffProj. simpl. rewrite N. lra. }
    pose proof (BField_off_axis Projectile initial (mkvec 1 0 1) N') as E.
    simpl in E. unfold reffProj in E. simpl in E. rewrite N in E.
    rewrite end_factor_some in E by lra. simpl in E.
    eexists. split; [exact E|].
    unfold dot, scale, divide, cross; simpl.
    set (s := sqrt _).
    assert (S : 0 < s) by (apply sqrt_lt_R0; lra).
    assert (Q : 0 < 3 / s) by (apply Rdiv_lt_0_compat; lra).
    intros H. field_simplify in H; [|lra]. 
    assert (H' : - s - 3 = 0).
    { apply (Rmult_eq_reg_r (/ s)); [|apply Rinv_neq_0_compat; lra].
      rewrite Rmult_0_l. exact H. }
    lra.
Qed.

(** C5 (amended): off the axis and where [L² + d > 0], the returned field
    is perpendicular to the segment's current vector and to the
    displacement the function itself builds (for the projectile,
    [(x, 0, 0)]). *)
Theorem BField_perpendicular (seg : Segment) (g : Globals) (r : vec) :
  norm (reff seg g r) <> 0 ->
  0 < factor_L seg g ^ 2 + factor_d seg g r ->
  exists v, BField seg g r = Some v /\
            dot v (current seg g) = 0 /\ dot v (reff seg g r) = 0.
Proof.
  intros N F.
  rewrite (BField_off_axis seg g r N), (end_factor_some _ _ F). simpl.
  eexists. split; [reflexivity|].
  rewrite cross_divide_r, !dot_scale_l, !dot_divide_l, dot_cross_l, dot_cross_r.
  unfold Rdiv. split; ring.
Qed.

Lemma BField_perpendicular_witness :
  let r := mkvec 0 1 0 in
  exists v, BField LeftRail initial r = Some v /\
            dot v (current LeftRail initial) = 0 /\
            dot v (reff LeftRail initial r) = 0.
Proof.
  apply (BField_perpendicular LeftRail initial (mkvec 0 1 0)).
  - simpl. unfold reffLeft. simpl. rewrite norm_axis_y, Rabs_R1. lra.
  - simpl. lra.
Defined.

(** ** The field on the projectile's axis *)

Lemma rail_term_pos (L r : R) : 0 <= L -> 0 < r -> 0 < rail_term L r.
Proof.
  intros HL Hr. unfold rail_term.
  assert (S : 0 < sqrt (L ^ 2 + r)) by (apply sqrt_lt_R0; nra).
  assert (Q : 0 <= L / sqrt (L ^ 2 + r)).
  { unfold Rdiv. apply Rmult_le_pos; [exact HL|].
    left. now apply Rinv_0_lt_compat. }
  apply Rdiv_lt_0_compat; lra.
Qed.

Lemma BFieldLeft_on_projectile (g : Globals) (i r : R) :
  ILeft g = mkvec (- i) 0 0 -> 0 < r -> 0 < rail_length g ^ 2 + r ->
  BFieldLeft g (mkvec 0 r 0) = Some (mkvec 0 0 (- i * rail_term (rail_length g) r)).
Proof.
  intros HI Hr HF.
  assert (N : norm (mkvec 0 r 0) = r).
  { rewrite norm_axis_y. apply Rabs_pos_eq. lra. }
  assert (N' : norm (reff LeftRail g (mkvec 0 r 0)) <> 0).
  { simpl. unfold reffLeft. simpl. rewrite N. lra. }
  pose proof (BField_off_axis LeftRail g (mkvec 0 r 0) N') as E.
  simpl in E. unfold reffLeft in E. simpl in E.
  rewrite N, HI, (end_factor_some _ _ HF) in E. rewrite E. simpl.
  unfold scale, divide, cross, rail_term. simpl.
  set (s := sqrt _).
  assert (S : 0 < s) by (apply sqrt_lt_R0; nra).
  f_equal. f_equal; field; lra.
Qed.

Lemma BFieldRight_on_projectile (g : Globals) (i r : R) :
  IRight g = mkvec i 0 0 -> r < dist_btwn_wires g ->
  0 < rail_length g ^ 2 + (dist_btwn_wires g - r) ->
  BFieldRight g (mkvec 0 r 0) =
  Some (mkvec 0 0 (- i * rail_term (rail_length g) (dist_btwn_wires g - r))).
Proof.
  intros HI Hr HF.
  assert (N : norm (mkvec 0 (r - dist_btwn_wires g) 0) = dist_btwn_wires g - r).
  { rewrite norm_axis_y, Rabs_left; lra. }
  assert (N' : norm (reff RightRail g (mkvec 0 r 0)) <> 0).
  { simpl. unfold reffRight. simpl. rewrite N. lra. }
  pose proof (BField_off_axis RightRail g (mkvec 0 r 0) N') as E.
  simpl in E. unfold reffRight in E. simpl in E.
  rewrite N, HI, (end_factor_some _ _ HF) in E. rewrite E. simpl.
  unfold scale, divide, cross, rail_term. simpl.
  set (s := sqrt _).
  assert (S : 0 < s) by (apply sqrt_lt_R0; nra).
  f_equal. f_equal; field; lra.
Qed.

Lemma BFieldLeft_at_left_rail (g : Globals) : BFieldLeft g (mkvec 0 0 0) = Some zeros.
Proof.
  apply (BField_on_axis LeftRail). simpl. unfold reffLeft. simpl. apply norm_zeros.
Qed.

Lemma BFieldRight_at_right_rail (g : Globals) :
  BFieldRight g (mkvec 0 (dist_btwn_wires g) 0) = Some zeros.
Proof.
  apply (BField_on_axis RightRail). simpl. unfold reffRight. simpl.
  apply norm_zero_iff. simpl. repeat split; lra.
Qed.

(** Strictly between the rails the field on the projectile has a
    z-component only, of size [|i| * both_rails]. *)
Lemma BFieldOnProjectile_between (g : Globals) (i r : R) :
  ILeft g = mkvec (- i) 0 0 -> IRight g = mkvec i 0 0 ->
  0 <= rail_length g -> 0 < r < dist_btwn_wires g ->
  BFieldOnProjectile g r =
  Some (mkvec 0 0 (- (i * both_rails (rail_length g) (dist_btwn_wires g) r))).
Proof.
  intros HL HR L0 [r0 rD]. unfold BFieldOnProjectile.
  rewrite (BFieldLeft_on_projectile g i r HL r0) by nra.
  rewrite (BFieldRight_on_projectile g i r HR rD) by nra.
  simpl. unfold vadd, both_rails. simpl. f_equal. f_equal; ring.
Qed.

Lemma both_rails_pos (L D r : R) : 0 <= L -> 0 < r < D -> 0 < both_rails L D r.
Proof.
  intros HL [r0 rD]. unfold both_rails.
  pose proof (rail_term_pos L r HL r0).
  assert (0 < rail_term L (D - r)) by (apply rail_term_pos; lra).
  lra.
Qed.

Lemma field_magnitude_between (g : Globals) (i r : R) :
  ILeft g = mkvec (- i) 0 0 -> IRight g = mkvec i 0 0 ->
  0 <= rail_length g -> 0 < r < dist_btwn_wires g ->
  np_norm (BFieldOnProjectile g r) =
  Some (Rabs i * both_rails (rail_length g) (dist_btwn_wires g) r).
Proof.
  intros HL HR L0 Hr.
  rewrite (BFieldOnProjectile_between g i r HL HR L0 Hr). simpl.
  rewrite norm_axis_z, Rabs_Ropp, Rabs_mult. f_equal. f_equal.
  apply Rabs_pos_eq. left. now apply both_rails_pos.
Qed.

Lemma force_magnitude_between (g : Globals) (i r : R) :
  ILeft g = mkvec (- i) 0 0 -> IRight g = mkvec i 0 0 -> IProj g = mkvec 0 i 0 ->
  0 <= rail_length g -> 0 < r < dist_btwn_wires g ->
  np_norm (np_cross_l (BFieldOnProjectile g r) (IProj g)) =
  Some (i * i * both_rails (rail_length g) (dist_btwn_wires g) r).
Proof.
  intros HL HR HP L0 Hr.
  rewrite (BFieldOnProjectile_between g i r HL HR L0 Hr), HP. simpl.
  pose proof (both_rails_pos _ _ _ L0 Hr) as B.
  set (b := both_rails _ _ _) in *.
  unfold cross. simpl.
  replace (mkvec (0 * 0 - - (i * b) * i) (- (i * b) * 0 - 0 * 0) (0 * i - 0 * 0))
    with (mkvec (i * i * b) 0 0) by (f_equal; ring).
  rewrite norm_axis_x. f_equal. apply Rabs_pos_eq. nra.
Qed.

(** ** Scaling the current *)

Lemma scale_zeros (k : R) : scale zeros k = zeros.
Proof. unfold scale, zeros; simpl. f_equal; ring. Qed.

Lemma cross_scale_l (a b : vec) (k : R) : cross (scale a k) b = scale (cross a b) k.
Proof. unfold cross, scale; simpl. f_equal; ring. Qed.

Lemma cross_scale_r (a b : vec) (k : R) : cross a (scale b k) = scale (cross a b) k.
Proof. unfold cross, scale; simpl. f_equal; ring. Qed.

Lemma divide_scale (a : vec) (k n : R) : divide (scale a k) n = scale (divide a n) k.
Proof. unfold divide, scale, Rdiv; simpl. f_equal; ring. Qed.

Lemma scale_scale (a : vec) (k m : R) : scale (scale a k) m = scale (scale a m) k.
Proof. unfold scale; simpl. f_equal; ring. Qed.

Lemma scale_twice (a : vec) (k m : R) : scale (scale a k) m = scale a (k * m).
Proof. unfold scale; simpl. f_equal; ring. Qed.

Lemma vadd_scale (a b : vec) (k : R) : vadd (scale a k) (scale b k) = scale (vadd a b) k.
Proof. unfold vadd, scale; simpl. f_equal; ring. Qed.

Lemma current_scaled (seg : Segment) (g : Globals) (c i : R) :
  current seg (updateCurrent (c * i) g) = scale (current seg (updateCurrent i g)) c.
Proof. destruct seg; unfold scale; simpl; f_equal; ring. Qed.

(** Multiplying the current by [c] multiplies every field vector by [c]. *)
Lemma BField_scaled (seg : Segment) (g : Globals) (c i : R) (p : vec) :
  BField seg (updateCurrent (c * i) g) p =
  (v <- BField seg (updateCurrent i g) p ;; Some (scale v c)).
Proof.
  assert (R1 : reff seg (updateCurrent (c * i) g) p = reff seg (updateCurrent i g) p)
    by now destruct seg.
  assert (L1 : factor_L seg (updateCurrent (c * i) g) = factor_L seg (updateCurrent i g))
    by now destruct seg.
  assert (D1 : factor_d seg (updateCurrent (c * i) g) p = factor_d seg (updateCurrent i g) p)
    by now destruct seg.
  destruct (Req_EM_T (norm (reff seg (updateCurrent i g) p)) 0) as [e|n].
  - rewrite (BField_on_axis seg (updateCurrent i g) p e).
    rewrite BField_on_axis by (now rewrite R1). simpl. now rewrite scale_zeros.
  - rewrite (BField_off_axis seg (updateCurrent i g) p n).
    rewrite BField_off_axis by (now rewrite R1).
    rewrite R1, L1, D1, current_scaled, cross_scale_l, divide_scale.
    destruct (end_factor _ _); simpl; [|reflexivity].
    now rewrite scale_scale.
Qed.

Lemma BFieldOnProjectile_scaled (g : Globals) (c i r : R) :
  BFieldOnProjectile (updateCurrent (c * i) g) r =
  (v <- BFieldOnProjectile (updateCurrent i g) r ;; Some (scale v c)).
Proof.
  unfold BFieldOnProjectile.
  pose proof (BField_scaled LeftRail g c i (mkvec 0 r 0)) as EL.
  pose proof (BField_scaled RightRail g c i (mkvec 0 r 0)) as ER.
  simpl in EL, ER. rewrite EL, ER. clear EL ER.
  destruct (BFieldLeft (updateCurrent i g) _) as [a|],
           (BFieldRight (updateCurrent i g) _) as [b|];
    cbn [np_add bind]; try reflexivity.
  now rewrite vadd_scale.
Qed.

Lemma norm_scale_2 (a : vec) : norm (scale a 2) = 2 * norm a.
Proof. rewrite norm_scale, Rabs_pos_eq; lra. Qed.

Lemma norm_scale_4 (a : vec) : norm (scale a (2 * 2)) = 4 * norm a.
Proof. rewrite norm_scale, Rabs_pos_eq; lra. Qed.

(** C4, as stated, fails for forces: with [railSeparation = 3],
    [railLength = 3] at [(0, 1.5, 0)] the force magnitude
    [norm(cross(BFieldOnProjectile(r), IProj))] at current 2 is four times,
    not twice, its value at current 1 (the field and [IProj] both double). *)
Lemma C4_counterexample :
  let g := set_rail_length 3 (set_dist_btwn_wires 3 initial) in
  let g1 := updateCurrent 1 g in
  let g2 := updateCurrent 2 g in
  exists f1 f2 : R,
    np_norm (np_cross_l (BFieldOnProjectile g1 (3 / 2)) (IProj g1)) = Some f1 /\
    np_norm (np_cross_l (BFieldOnProjectile g2 (3 / 2)) (IProj g2)) = Some f2 /\
    f2 = 4 * f1 /\ f2 <> 2 * f1.
Proof.
  intros g g1 g2.
  assert (B : 0 < both_rails 3 3 (3 / 2)) by (apply both_rails_pos; lra).
  exists (1 * 1 * both_rails 3 3 (3 / 2)), (2 * 2 * both_rails 3 3 (3 / 2)).
  split; [|split; [|split]].
  - apply (force_magnitude_between g1 1 (3 / 2)); try reflexivity; simpl; lra.
  - apply (force_magnitude_between g2 2 (3 / 2)); try reflexivity; simpl; lra.
  - ring.
  - lra.
Qed.

(** C4 (amended): doubling the current with [updateCurrent] doubles the
    magnitude of every field vector (each segment's field and the combined
    field on the projectile) and multiplies by four the magnitude of every
    force, on the projectile and on a rail alike, since the current vector
    in the cross product doubles too. *)
Theorem doubling_current (g : Globals) (i r : R) (seg src : Segment) (p : vec) :
  let g1 := updateCurrent i g in
  let g2 := updateCurrent (2 * i) g in
  np_norm (BField seg g2 p) = (x <- np_norm (BField seg g1 p) ;; Some (2 * x)) /\
  np_norm (BFieldOnProjectile g2 r) =
    (x <- np_norm (BFieldOnProjectile g1 r) ;; Some (2 * x)) /\
  np_norm (np_cross_l (BFieldOnProjectile g2 r) (IProj g2)) =
    (x <- np_norm (np_cross_l (BFieldOnProjectile g1 r) (IProj g1)) ;; Some (4 * x)) /\
  np_norm (np_cross_r (current seg g2) (BField src g2 p)) =
    (x <- np_norm (np_cross_r (current seg g1) (BField src g1 p)) ;; Some (4 * x)).
Proof.
  intros g1 g2. unfold g1, g2.
  pose proof (current_scaled Projectile g 2 i) as EP. simpl in EP.
  repeat split.
  - rewrite BField_scaled.
    destruct (BField seg (updateCurrent i g) p); cbn [np_norm bind]; [|reflexivity].
    now rewrite norm_scale_2.
  - rewrite BFieldOnProjectile_scaled.
    destruct (BFieldOnProjectile (updateCurrent i g) r); cbn [np_norm bind];
      [|reflexivity].
    now rewrite norm_scale_2.
  - rewrite BFieldOnProjectile_scaled.
    cbn [IProj updateCurrent]. cbn [IProj updateCurrent] in EP. rewrite EP.
    destruct (BFieldOnProjectile (updateCurrent i g) r);
      cbn [np_norm np_cross_l bind]; [|reflexivity].
    now rewrite cross_scale_l, cross_scale_r, scale_twice, norm_scale_4.
  - rewrite BField_scaled, current_scaled.
    destruct (BField src (updateCurrent i g) p);
      cbn [np_norm np_cross_r bind]; [|reflexivity].
    now rewrite cross_scale_l, cross_scale_r, scale_twice, norm_scale_4.
Qed.

(** ** The repulsion sweeps *)

Lemma In_linspace_const (a y : R) (n : nat) : In y (linspace a a n) -> y = a.
Proof.
  unfold linspace. intros H. apply in_map_iff in H as (i & <- & _).
  unfold Rdiv. ring.
Qed.

Lemma In_grid_xy (xs ys : list R) (p : vec) :
  In p (grid_xy xs ys) -> In (c0 p) xs /\ In (c1 p) ys /\ c2 p = 0.
Proof.
  unfold grid_xy. intros H.
  apply in_flat_map in H as (i & Hi & H).
  apply in_map_iff in H as (j & <- & Hj). simpl. auto.
Qed.

Lemma on_left_rail (g : Globals) (p : vec) :
  In p (left_rail_points g) -> c1 p = 0 /\ c2 p = 0.
Proof.
  intros H. apply In_grid_xy in H as (_ & H & ?).
  apply In_linspace_const in H. auto.
Qed.

Lemma on_right_rail (g : Globals) (p : vec) :
  In p (right_rail_points g) -> c1 p = dist_btwn_wires g /\ c2 p = 0.
Proof.
  intros H. apply In_grid_xy in H as (_ & H & ?).
  apply In_linspace_const in H. auto.
Qed.

Lemma OpposingLocal_BFieldRight_plain (g : Globals) (p : vec) :
  norm (reffRight g p) <> 0 ->
  OpposingLocal.BFieldRight g p = Some (Spec.infiniteWire (IRight g) (reffRight g p)).
Proof.
  intros H. unfold OpposingLocal.BFieldRight, reffRight in *.
  destruct (Req_EM_T _ 0); [contradiction|reflexivity].
Qed.

Lemma OpposingLocal_BFieldLeft_plain (g : Globals) (p : vec) :
  norm (reffLeft p) <> 0 ->
  OpposingLocal.BFieldLeft g p = Some (Spec.infiniteWire (ILeft g) (reffLeft p)).
Proof.
  intros H. unfold OpposingLocal.BFieldLeft, reffLeft in *.
  destruct (Req_EM_T _ 0); [contradiction|reflexivity].
Qed.

Lemma BFieldProj_cases (g : Globals) (p : vec) :
  BFieldProj g p =
  if Req_EM_T (c0 p) 0 then Some zeros
  else Spec.fieldAt (IProj g) (mkvec (c0 p) 0 0) (dist_btwn_wires g) (c0 p).
Proof.
  assert (N : norm (reff Projectile g p) = 0 <-> c0 p = 0).
  { rewrite norm_zero_iff. simpl. tauto. }
  change (BFieldProj g p) with (BField Projectile g p).
  destruct (Req_EM_T (c0 p) 0) as [e|n].
  - apply BField_on_axis. tauto.
  - rewrite (BField_off_axis Projectile g p) by tauto.
    unfold Spec.fieldAt, Spec.infiniteWire, Spec.rHat.
    rewrite <- end_factor_spec. simpl.
    now destruct (end_factor (dist_btwn_wires g) (c0 p)).
Qed.

Lemma BFieldRight_on_left_rail (g : Globals) (x : R) :
  dist_btwn_wires g <> 0 ->
  BFieldRight g (mkvec x 0 0) =
  Spec.fieldAt (IRight g) (mkvec 0 (- dist_btwn_wires g) 0)
               (rail_length g) (dist_btwn_wires g).
Proof.
  intros H.
  assert (E : reff RightRail g (mkvec x 0 0) = mkvec 0 (- dist_btwn_wires g) 0).
  { simpl. unfold reffRight. simpl. f_equal. ring. }
  assert (N : norm (reff RightRail g (mkvec x 0 0)) <> 0).
  { rewrite E, norm_axis_y. apply Rabs_no_R0. lra. }
  change (BFieldRight g (mkvec x 0 0)) with (BField RightRail g (mkvec x 0 0)).
  rewrite (BField_off_axis RightRail g _ N), E.
  unfold Spec.fieldAt, Spec.infiniteWire, Spec.rHat.
  rewrite <- end_factor_spec. simpl.
  replace (dist_btwn_wires g - 0) with (dist_btwn_wires g) by ring.
  now destruct (end_factor (rail_length g) (dist_btwn_wires g)).
Qed.

Lemma scale_neq (a : vec) (k : R) : k <> 1 -> c2 a <> 0 -> scale a k <> a.
Proof.
  intros Hk Ha E. apply (f_equal c2) in E. simpl in E.
  apply Hk. apply (Rmult_eq_reg_l (c2 a)); [lra|exact Ha].
Qed.

(** C7, as stated, fails for sweep (e): [calcTotalRailRepulsion] calls the
    module-level [BFieldRight], and at its first sample [x = 3] (with
    [d_ = l_ = 3], [i_ = 1]) the field entering the second cross product
    is not the plain infinite-wire value. *)
Lemma C7_counterexample :
  let run := calcTotalRailRepulsion 3 3 1 initial in
  let g := fst run in
  let x0 := nth 0 (fst (snd run)) 0 in
  x0 = 3 /\
  nth 0 (snd (snd run)) None =
    fl_add (np_norm (np_cross_r (ILeft g) (BFieldProj g (mkvec x0 0 0))))
           (np_norm (np_cross_r (ILeft g) (BFieldRight g (mkvec x0 0 0)))) /\
  norm (reffRight g (mkvec x0 0 0)) <> 0 /\
  exists v, BFieldRight g (mkvec x0 0 0) = Some v /\
            v <> Spec.infiniteWire (IRight g) (reffRight g (mkvec x0 0 0)).
Proof.
  cbv zeta.
  set (g := fst (calcTotalRailRepulsion 3 3 1 initial)).
  set (x0 := nth 0 (fst (snd (calcTotalRailRepulsion 3 3 1 initial))) 0).
  assert (N : norm (reffRight g (mkvec x0 0 0)) = 3).
  { unfold reffRight, g. simpl. rewrite norm_axis_y.
    replace (0 - 3) with (- (3)) by ring. rewrite Rabs_Ropp. apply Rabs_pos_eq. lra. }
  split; [|split; [|split]].
  - unfold x0. simpl. ring.
  - reflexivity.
  - rewrite N. lra.
  - assert (N' : norm (reff RightRail g (mkvec x0 0 0)) <> 0).
    { simpl. rewrite N. lra. }
    pose proof (BField_off_axis RightRail g (mkvec x0 0 0) N') as E.
    cbn [BField reff current factor_L factor_d] in E.
    assert (F : end_factor (rail_length g) (dist_btwn_wires g - c1 (mkvec x0 0 0))
                = Some (1 + 3 / sqrt (3 ^ 2 + (3 - 0)))).
    { unfold g. simpl. apply end_factor_some. lra. }
    rewrite F in E. cbn [np_scale bind] in E.
    eexists. split; [exact E|].
    unfold Spec.infiniteWire, Spec.rHat.
    apply scale_neq.
    + assert (S : 0 < sqrt (3 ^ 2 + (3 - 0))) by (apply sqrt_lt_R0; lra).
      assert (Q : 0 < 3 / sqrt (3 ^ 2 + (3 - 0))) by (apply Rdiv_lt_0_compat; lra).
      lra.
    + rewrite N. unfold g. simpl. lra.
Qed.

(** C7 (amended): only sweep (c) uses rail fields without the
    end-correction factor: for a nonzero separation every field entering
    one of its cross products is [cross(currentVector, rHat) / r].  Sweeps
    (d) and (e) call the module-level [BFieldProj] and [BFieldRight], whose
    values keep the factor [1 + L / sqrt(L² + d)]. *)
Theorem repulsion_sweep_fields (d_ l_ i_ : R) (g0 : Globals) :
  d_ <> 0 ->
  let g := updateCurrent i_ (set_rail_length l_ (set_dist_btwn_wires d_ g0)) in
  snd (plotOpposingCurrentForces d_ l_ i_ g0) =
    map (fun p => force_arrow p
           (Some (cross (ILeft g) (Spec.infiniteWire (IRight g) (reffRight g p)))))
        (left_rail_points g)
    ++
    map (fun p => force_arrow p
           (Some (cross (IRight g) (Spec.infiniteWire (ILeft g) (reffLeft p)))))
        (right_rail_points g)
  /\
  snd (plotProjectileRepulsionForce d_ l_ i_ g0) =
    map (fun p => force_arrow p
           (np_cross_r (ILeft g)
              (if Req_EM_T (c0 p) 0 then Some zeros
               else Spec.fieldAt (IProj g) (mkvec (c0 p) 0 0) d_ (c0 p))))
        (left_rail_points g)
    ++
    map (fun p => force_arrow p
           (np_cross_r (IRight g)
              (if Req_EM_T (c0 p) 0 then Some zeros
               else Spec.fieldAt (IProj g) (mkvec (c0 p) 0 0) d_ (c0 p))))
        (right_rail_points g)
  /\
  snd (snd (calcTotalRailRepulsion d_ l_ i_ g0)) =
    map (fun x =>
           fl_add
             (np_norm (np_cross_r (ILeft g)
                (if Req_EM_T x 0 then Some zeros
                 else Spec.fieldAt (IProj g) (mkvec x 0 0) d_ x)))
             (np_norm (np_cross_r (ILeft g)
                (Spec.fieldAt (IRight g) (mkvec 0 (- d_) 0) l_ d_))))
        (linspace l_ 0 100).
Proof.
  intros Hd g.
  assert (Dg : dist_btwn_wires g = d_) by reflexivity.
  split; [|split].
  - unfold plotOpposingCurrentForces. cbn [snd]. fold g. f_equal.
    + apply map_ext_in. intros p Hp. apply on_left_rail in Hp as [H1 H2].
      rewrite OpposingLocal_BFieldRight_plain; [reflexivity|].
      unfold reffRight. rewrite H1, H2, Dg, norm_axis_y.
      apply Rabs_no_R0. lra.
    + apply map_ext_in. intros p Hp. apply on_right_rail in Hp as [H1 H2].
      rewrite OpposingLocal_BFieldLeft_plain; [reflexivity|].
      unfold reffLeft. rewrite H1, H2, Dg, norm_axis_y.
      now apply Rabs_no_R0.
  - unfold plotProjectileRepulsionForce. cbn [snd]. fold g.
    f_equal; apply map_ext; intros p; now rewrite BFieldProj_cases.
  - unfold calcTotalRailRepulsion. cbn [snd]. fold g.
    apply map_ext. intros x.
    rewrite BFieldProj_cases, BFieldRight_on_left_rail by (now rewrite Dg).
    reflexivity.
Qed.

Lemma repulsion_sweep_fields_witness :
  snd (plotOpposingCurrentForces 3 3 1 initial) =
    map (fun p => force_arrow p
           (Some (cross (mkvec (-1) 0 0)
                        (Spec.infiniteWire (mkvec 1 0 0) (mkvec 0 (c1 p - 3) (c2 p))))))
        (grid_xy (linspace 3 0 20) (linspace 0 0 10))
    ++
    map (fun p => force_arrow p
           (Some (cross (mkvec 1 0 0)
                        (Spec.infiniteWire (mkvec (-1) 0 0) (mkvec 0 (c1 p) (c2 p))))))
        (grid_xy (linspace 3 0 20) (linspace 3 3 10)).
Proof.
  assert (H : (3 : R) <> 0) by lra.
  exact (proj1 (repulsion_sweep_fields 3 3 1 initial H)).
Defined.

(** ** Shape of the field magnitude along the projectile *)

(** Second differences of the reciprocal: equal steps cost more near zero. *)
Lemma inv_steps (a b c d : R) :
  0 < a -> a <= b -> b <= c -> c <= d -> b - a = d - c ->
  / c - / d <= / a - / b.
Proof.
  intros a0 ab bc cd E.
  assert (H : / a - / b - (/ c - / d)
              = ((b - a) * (c * d) - (d - c) * (a * b)) / (a * b * c * d))
    by (field; repeat split; lra).
  assert (P : 0 < a * b * c * d).
  { repeat apply Rmult_lt_0_compat; lra. }
  assert (Nn : 0 <= (b - a) * (c * d) - (d - c) * (a * b)).
  { rewrite <- E.
    replace ((b - a) * (c * d) - (b - a) * (a * b))
      with ((b - a) * (c * d - a * b)) by ring.
    apply Rmult_le_pos; [lra|]. nra. }
  assert (0 <= / a - / b - (/ c - / d)).
  { rewrite H. apply Rmult_le_pos; [exact Nn|]. left. now apply Rinv_0_lt_compat. }
  lra.
Qed.

(** The same for the reciprocal of a square root, stated on the roots. *)
Lemma inv_root_steps (A B C E : R) :
  0 < A -> A <= B -> B <= C -> C <= E -> B * B - A * A = E * E - C * C ->
  / C - / E <= / A - / B.
Proof.
  intros A0 AB BC CE Q.
  assert (S : E - C <= B - A).
  { assert (T : (E - C) * (A + B) <= (B - A) * (A + B)) by nra.
    apply (Rmult_le_reg_r (A + B)); lra. }
  assert (H : / A - / B - (/ C - / E)
              = ((B - A) * (C * E) - (E - C) * (A * B)) / (A * B * C * E))
    by (field; repeat split; lra).
  assert (P : 0 < A * B * C * E).
  { repeat apply Rmult_lt_0_compat; lra. }
  assert (Nn : 0 <= (B - A) * (C * E) - (E - C) * (A * B)).
  { assert (0 <= (E - C) * (C * E - A * B)).
    { apply Rmult_le_pos; [lra|nra]. }
    assert (0 <= ((B - A) - (E - C)) * (C * E)).
    { apply Rmult_le_pos; [lra|]. apply Rmult_le_pos; lra. }
    nra. }
  assert (0 <= / A - / B - (/ C - / E)).
  { rewrite H. apply Rmult_le_pos; [exact Nn|]. left. now apply Rinv_0_lt_compat. }
  lra.
Qed.

(** Products of two non-negative sequences with shrinking steps. *)
Lemma product_steps (ua ub uc ud va vb vc vd : R) :
  0 <= uc -> uc <= ua -> 0 <= vd -> vd <= vb ->
  0 <= uc - ud -> uc - ud <= ua - ub ->
  0 <= vc - vd -> vc - vd <= va - vb ->
  uc * vc - ud * vd <= ua * va - ub * vb.
Proof.
  intros.
  replace (ua * va - ub * vb) with (ua * (va - vb) + vb * (ua - ub)) by ring.
  replace (uc * vc - ud * vd) with (uc * (vc - vd) + vd * (uc - ud)) by ring.
  apply Rplus_le_compat.
  - apply Rmult_le_compat; lra.
  - apply Rmult_le_compat; lra.
Qed.

Lemma rail_term_split (L r : R) :
  0 < r -> 0 < L ^ 2 + r ->
  rail_term L r = / r + L * (/ r * / sqrt (L ^ 2 + r)).
Proof.
  intros r0 H. unfold rail_term.
  assert (0 < sqrt (L ^ 2 + r)) by now apply sqrt_lt_R0.
  field. lra.
Qed.

Lemma both_rails_sym (L D r : R) : both_rails L D (D - r) = both_rails L D r.
Proof.
  unfold both_rails. replace (D - (D - r)) with r by ring. ring.
Qed.

(** Towards the midpoint the summed field of the two rails decreases. *)
Lemma both_rails_antitone (L D a b : R) :
  0 <= L -> 0 < a -> a <= b -> b <= D - b ->
  both_rails L D b <= both_rails L D a.
Proof.
  intros L0 a0 ab bm.
  set (c := D - b). set (d := D - a).
  assert (bc : b <= c) by (unfold c; lra).
  assert (cd : c <= d) by (unfold c, d; lra).
  assert (E : b - a = d - c) by (unfold c, d; ring).
  assert (L2 : 0 <= L ^ 2) by nra.
  unfold both_rails. fold c d.
  rewrite !rail_term_split by lra.
  set (A := sqrt (L ^ 2 + a)). set (B := sqrt (L ^ 2 + b)).
  set (C := sqrt (L ^ 2 + c)). set (E' := sqrt (L ^ 2 + d)).
  assert (A0 : 0 < A) by (apply sqrt_lt_R0; lra).
  assert (AB : A <= B) by (apply sqrt_le_1_alt; lra).
  assert (BC : B <= C) by (apply sqrt_le_1_alt; lra).
  assert (CE : C <= E') by (apply sqrt_le_1_alt; lra).
  assert (SA : A * A = L ^ 2 + a) by (apply sqrt_sqrt; lra).
  assert (SB : B * B = L ^ 2 + b) by (apply sqrt_sqrt; lra).
  assert (SC : C * C = L ^ 2 + c) by (apply sqrt_sqrt; lra).
  assert (SE : E' * E' = L ^ 2 + d) by (apply sqrt_sqrt; lra).
  pose proof (inv_steps a b c d a0 ab bc cd E) as U.
  assert (V : / C - / E' <= / A - / B) by (apply inv_root_steps; lra).
  assert (ia : 0 < / a) by (apply Rinv_0_lt_compat; lra).
  assert (uca : / c <= / a) by (apply Rinv_le_contravar; lra).
  assert (udc : / d <= / c) by (apply Rinv_le_contravar; lra).
  assert (id : 0 < / d) by (apply Rinv_0_lt_compat; lra).
  assert (vE : 0 < / E') by (apply Rinv_0_lt_compat; lra).
  assert (vEB : / E' <= / B) by (apply Rinv_le_contravar; lra).
  assert (vEC : / E' <= / C) by (apply Rinv_le_contravar; lra).
  pose proof (product_steps (/ a) (/ b) (/ c) (/ d) (/ A) (/ B) (/ C) (/ E')) as P.
  assert (P' : / c * / C - / d * / E' <= / a * / A - / b * / B)
    by (apply P; lra).
  nra.
Qed.

Lemma rail_term_lower (L r : R) : 0 <= L -> 0 < r -> / r <= rail_term L r.
Proof.
  intros L0 r0. unfold rail_term.
  assert (S : 0 < sqrt (L ^ 2 + r)) by (apply sqrt_lt_R0; nra).
  assert (Q : 0 <= L / sqrt (L ^ 2 + r)).
  { unfold Rdiv. apply Rmult_le_pos; [exact L0|]. left. now apply Rinv_0_lt_compat. }
  assert (I : 0 < / r) by now apply Rinv_0_lt_compat.
  unfold Rdiv. nra.
Qed.

Lemma rail_term_upper (L r : R) : 0 <= L -> 0 < r -> rail_term L r <= 2 / r.
Proof.
  intros L0 r0. unfold rail_term.
  assert (S : 0 < sqrt (L ^ 2 + r)) by (apply sqrt_lt_R0; nra).
  assert (LS : L <= sqrt (L ^ 2 + r)).
  { rewrite <- (sqrt_pow2 L L0) at 1. apply sqrt_le_1_alt. lra. }
  assert (Q : L / sqrt (L ^ 2 + r) <= 1).
  { apply (Rmult_le_reg_r (sqrt (L ^ 2 + r))); [exact S|].
    unfold Rdiv. rewrite Rmult_assoc, Rinv_l by lra. lra. }
  assert (I : 0 < / r) by now apply Rinv_0_lt_compat.
  unfold Rdiv. nra.
Qed.

Lemma INR_le_IZR (i : nat) (z : Z) : (Z.of_nat i <= z)%Z -> INR i <= IZR z.
Proof. intros H. rewrite INR_IZR_INZ. now apply IZR_le. Qed.

Lemma IZR_le_INR (i : nat) (z : Z) : (z <= Z.of_nat i)%Z -> IZR z <= INR i.
Proof. intros H. rewrite INR_IZR_INZ. now apply IZR_le. Qed.

Lemma nth_map_linspace {A : Type} (f : R -> option A) (a b : R) (n k : nat) :
  (k < n)%nat ->
  nth k (map f (linspace a b n)) None = f (a + INR k * ((b - a) / INR (n - 1))).
Proof.
  intros H. unfold linspace. rewrite map_map.
  set (F := fun i : nat => f (a + INR i * ((b - a) / INR (n - 1)))).
  rewrite (nth_indep _ None (F 0%nat)) by (now rewrite length_map, length_seq).
  rewrite (map_nth F), seq_nth by exact H. reflexivity.
Qed.

(** The state in which sweep (b) runs for [railSeparation = 3],
    [railLength = 4], [current = 1], and its [k]-th field magnitude. *)
Lemma info_b_nth (g0 : Globals) (k : nat) :
  (k < 100)%nat ->
  nth k (info_b (snd (plotProjectileInfo 3 1 (set_rail_length 4 g0)))) None =
  np_norm (BFieldOnProjectile
             (updateCurrent 1 (set_dist_btwn_wires 3 (set_rail_length 4 g0)))
             (INR k / 33)).
Proof.
  intros H. unfold plotProjectileInfo. cbn [snd info_b].
  etransitivity; [apply (nth_map_linspace (A:=R)); exact H|]. f_equal. f_equal.
  cbn [dist_btwn_wires updateCurrent set_dist_btwn_wires].
  change (100 - 1)%nat with 99%nat.
  replace (INR 99) with 99 by (rewrite INR_IZR_INZ; reflexivity).
  field.
Qed.

Lemma info_b_interior (g0 : Globals) (k : nat) :
  (1 <= k)%nat -> (k <= 98)%nat ->
  nth k (info_b (snd (plotProjectileInfo 3 1 (set_rail_length 4 g0)))) None =
  Some (both_rails 4 3 (INR k / 33)).
Proof.
  intros H1 H2. rewrite info_b_nth by lia.
  assert (1 <= INR k) by (apply (IZR_le_INR k 1); lia).
  assert (INR k <= 98) by (apply (INR_le_IZR k 98); lia).
  rewrite (field_magnitude_between _ 1); try reflexivity; simpl; try lra.
  - rewrite Rabs_R1. f_equal. ring.
Qed.

Lemma norm_z_only (a : vec) (z : R) :
  c0 a = 0 -> c1 a = 0 -> c2 a = z -> norm a = Rabs z.
Proof.
  intros H0 H1 H2. destruct a as [x y w]. simpl in *. subst.
  apply norm_axis_z.
Qed.

(** At [r = 0] the left rail contributes the zero vector: only the right
    rail is left. *)
Lemma info_b_first (g0 : Globals) :
  nth 0 (info_b (snd (plotProjectileInfo 3 1 (set_rail_length 4 g0)))) None =
  Some (rail_term 4 3).
Proof.
  rewrite info_b_nth by lia.
  replace (INR 0 / 33) with 0 by (simpl; lra).
  set (g := updateCurrent 1 (set_dist_btwn_wires 3 (set_rail_length 4 g0))).
  unfold BFieldOnProjectile.
  rewrite BFieldLeft_at_left_rail.
  rewrite (BFieldRight_on_projectile g 1 0) by (try reflexivity; simpl; lra).
  cbn [np_add np_norm bind]. f_equal.
  pose proof (rail_term_pos 4 3) as P.
  rewrite (norm_z_only _ (- rail_term 4 3)).
  - rewrite Rabs_Ropp. apply Rabs_pos_eq. lra.
  - simpl. ring.
  - simpl. ring.
  - simpl. replace (3 - 0) with 3 by ring. ring.
Qed.

(** At [r = 3] it is the right rail that contributes the zero vector. *)
Lemma info_b_last (g0 : Globals) :
  nth 99 (info_b (snd (plotProjectileInfo 3 1 (set_rail_length 4 g0)))) None =
  Some (rail_term 4 3).
Proof.
  rewrite info_b_nth by lia.
  replace (INR 99 / 33) with 3 by (rewrite INR_IZR_INZ; simpl; lra).
  set (g := updateCurrent 1 (set_dist_btwn_wires 3 (set_rail_length 4 g0))).
  unfold BFieldOnProjectile.
  change (BFieldRight g (mkvec 0 3 0))
    with (BFieldRight g (mkvec 0 (dist_btwn_wires g) 0)).
  rewrite (BFieldRight_at_right_rail g).
  rewrite (BFieldLeft_on_projectile g 1 3) by (try reflexivity; simpl; lra).
  cbn [np_add np_norm bind]. f_equal.
  pose proof (rail_term_pos 4 3) as P.
  rewrite (norm_z_only _ (- rail_term 4 3)).
  - rewrite Rabs_Ropp. apply Rabs_pos_eq. lra.
  - simpl. ring.
  - simpl. ring.
  - simpl. ring.
Qed.

Lemma end_sample_small : rail_term 4 3 < 1.
Proof.
  pose proof (rail_term_upper 4 3). lra.
Qed.

Lemma next_sample_large (r : R) : 0 < r < 3 -> r <= / 33 -> 33 <= both_rails 4 3 r.
Proof.
  intros [r0 r3] H. unfold both_rails.
  pose proof (rail_term_lower 4 r) as A.
  pose proof (rail_term_pos 4 (3 - r)) as B.
  assert (33 <= / r).
  { rewrite <- (Rinv_inv 33). apply Rinv_le_contravar; lra. }
  lra.
Qed.

(** C6, as stated, fails: the first and the last sample lie on a rail,
    where that rail's field is the zero vector, so the sequence starts and
    ends below its neighbours and is no valley over the 100 samples. *)
Lemma C6_counterexample :
  let b := info_b (snd (plotProjectileInfo 3 1 (set_rail_length 4 initial))) in
  exists b0 b1 b98 b99 : R,
    nth 0 b None = Some b0 /\ nth 1 b None = Some b1 /\
    nth 98 b None = Some b98 /\ nth 99 b None = Some b99 /\
    b0 < b1 /\ b99 < b98 /\ ~ valley b 0 99.
Proof.
  intros b.
  pose proof (info_b_first initial) as E0. fold b in E0.
  pose proof (info_b_last initial) as E99. fold b in E99.
  assert (E1 : nth 1 b None = Some (both_rails 4 3 (INR 1 / 33)))
    by (apply info_b_interior; lia).
  assert (E98 : nth 98 b None = Some (both_rails 4 3 (INR 98 / 33)))
    by (apply info_b_interior; lia).
  pose proof end_sample_small as S.
  assert (L1 : 33 <= both_rails 4 3 (INR 1 / 33)).
  { apply next_sample_large; simpl; lra. }
  assert (L98 : 33 <= both_rails 4 3 (INR 98 / 33)).
  { rewrite <- both_rails_sym. apply next_sample_large;
      rewrite INR_IZR_INZ; simpl; lra. }
  exists (rail_term 4 3), (both_rails 4 3 (INR 1 / 33)),
         (both_rails 4 3 (INR 98 / 33)), (rail_term 4 3).
  repeat (split; [assumption || lra|]).
  intros (m & _ & Hm & Hdec & Hinc).
  destruct m as [|m].
  - specialize (Hinc 98%nat 99%nat). rewrite E98, E99 in Hinc.
    simpl in Hinc. assert (both_rails 4 3 (INR 98 / 33) <= rail_term 4 3)
      by (apply Hinc; lia).
    lra.
  - specialize (Hdec 0%nat 1%nat). rewrite E0, E1 in Hdec.
    simpl in Hdec. assert (both_rails 4 3 (INR 1 / 33) <= rail_term 4 3)
      by (apply Hdec; lia).
    lra.
Qed.

(** C6 (amended): with [railSeparation = 3], [railLength = 4],
    [current = 1], the field magnitudes of sweep (b) over the samples
    strictly between the rails (indices 1 to 98 of the 100) are
    non-increasing up to index 49 and non-decreasing from there on: one
    minimum next to [r = 1.5]. *)
Theorem projectile_field_valley (g0 : Globals) :
  let b := info_b (snd (plotProjectileInfo 3 1 (set_rail_length 4 g0))) in
  non_increasing_on b 1 49 /\ non_decreasing_on b 49 98.
Proof.
  intros b. split.
  - intros i j Hi Hij Hj. unfold b.
    rewrite !info_b_interior by lia. simpl.
    assert (1 <= INR i) by (apply (IZR_le_INR i 1); lia).
    assert (INR i <= INR j) by (now apply le_INR).
    assert (INR j <= 49) by (apply (INR_le_IZR j 49); lia).
    apply both_rails_antitone; lra.
  - intros i j Hi Hij Hj. unfold b.
    rewrite !info_b_interior by lia. simpl.
    assert (49 <= INR i) by (apply (IZR_le_INR i 49); lia).
    assert (INR i <= INR j) by (now apply le_INR).
    assert (INR j <= 98) by (apply (INR_le_IZR j 98); lia).
    destruct (Nat.le_gt_cases j 49) as [J|J].
    + replace j with i by lia. lra.
    + assert (50 <= INR j) by (apply (IZR_le_INR j 50); lia).
      rewrite <- (both_rails_sym 4 3 (INR j / 33)).
      destruct (Nat.le_gt_cases i 49) as [I|I].
      * assert (INR i <= 49) by (apply (INR_le_IZR i 49); lia).
        apply both_rails_antitone; lra.
      * assert (50 <= INR i) by (apply (IZR_le_INR i 50); lia).
        rewrite <- (both_rails_sym 4 3 (INR i / 33)).
        apply both_rails_antitone; lra.
Qed.

(** ** Further properties of the field functions *)

(** The infinite-wire part of a rail's field, by components: the current
    runs along x and the displacement has no x-component. *)
Lemma wire_x_components (a y z : R) :
  norm (mkvec 0 y z) <> 0 ->
  divide (cross (mkvec a 0 0) (divide (mkvec 0 y z) (norm (mkvec 0 y z))))
         (norm (mkvec 0 y z))
  = mkvec 0 (- a * z / (y * y + z * z)) (a * y / (y * y + z * z)).
Proof.
  intros N. pose proof (norm_sqr (mkvec 0 y z)) as S. simpl in S.
  replace (y * y + z * z) with (norm (mkvec 0 y z) * norm (mkvec 0 y z))
    by (rewrite S; ring).
  set (n := norm (mkvec 0 y z)) in *.
  unfold divide, cross. simpl. f_equal; field; exact N.
Qed.

Lemma norm_flip_y (y z : R) : norm (mkvec 0 (- y) z) = norm (mkvec 0 y z).
Proof. unfold norm. simpl. f_equal. ring. Qed.

Lemma BFieldLeft_components (g : Globals) (a : R) (p : vec) :
  ILeft g = mkvec a 0 0 -> norm (mkvec 0 (c1 p) (c2 p)) <> 0 ->
  BFieldLeft g p =
  np_scale (mkvec 0 (- a * c2 p / (c1 p * c1 p + c2 p * c2 p))
                    (a * c1 p / (c1 p * c1 p + c2 p * c2 p)))
           (end_factor (rail_length g) (c1 p)).
Proof.
  intros HI N.
  change (BFieldLeft g p) with (BField LeftRail g p).
  rewrite (BField_off_axis LeftRail g p N). simpl. unfold reffLeft.
  now rewrite HI, wire_x_components.
Qed.

Lemma BFieldRight_components (g : Globals) (a : R) (p : vec) :
  IRight g = mkvec a 0 0 ->
  norm (mkvec 0 (c1 p - dist_btwn_wires g) (c2 p)) <> 0 ->
  BFieldRight g p =
  np_scale (mkvec 0
              (- a * c2 p / ((c1 p - dist_btwn_wires g) * (c1 p - dist_btwn_wires g)
                             + c2 p * c2 p))
              (a * (c1 p - dist_btwn_wires g)
               / ((c1 p - dist_btwn_wires g) * (c1 p - dist_btwn_wires g)
                  + c2 p * c2 p)))
           (end_factor (rail_length g) (dist_btwn_wires g - c1 p)).
Proof.
  intros HI N.
  change (BFieldRight g p) with (BField RightRail g p).
  rewrite (BField_off_axis RightRail g p N). simpl. unfold reffRight.
  now rewrite HI, wire_x_components.
Qed.

Lemma mirrored_rail_field (g0 : Globals) (i x x' y z : R) :
  let g := updateCurrent i g0 in
  BFieldRight g (mkvec x' (dist_btwn_wires g - y) z) =
  (v <- BFieldLeft g (mkvec x y z) ;; Some (mkvec (c0 v) (- c1 v) (c2 v))).
Proof.
  intros g.
  assert (Dg : dist_btwn_wires g = dist_btwn_wires g0) by reflexivity.
  rewrite Dg. set (D := dist_btwn_wires g0).
  assert (E : D - y - D = - y) by ring.
  assert (NR : norm (mkvec 0 (D - y - D) z) = norm (mkvec 0 y z))
    by (now rewrite E, norm_flip_y).
  destruct (Req_EM_T (norm (mkvec 0 y z)) 0) as [e|n].
  - rewrite (BField_on_axis LeftRail g (mkvec x y z) e : BFieldLeft g _ = _).
    rewrite (BField_on_axis RightRail g (mkvec x' (D - y) z) : _ -> BFieldRight g _ = _).
    + cbn [bind c0 c1 c2 zeros]. unfold zeros. do 2 f_equal. ring.
    + change (norm (mkvec 0 (D - y - D) z) = 0). now rewrite NR.
  - rewrite (BFieldLeft_components g (- i) (mkvec x y z)) by (trivial).
    rewrite (BFieldRight_components g i (mkvec x' (D - y) z));
      [|reflexivity|change (norm (mkvec 0 (D - y - D) z) <> 0); now rewrite NR].
    change (dist_btwn_wires g) with D. change (rail_length g) with (rail_length g0).
    cbn [c0 c1 c2]. rewrite E.
    replace (D - (D - y)) with y by ring.
    destruct (end_factor (rail_length g0) y) as [k|]; cbn [np_scale bind];
      [|reflexivity].
    unfold scale. cbn [c0 c1 c2].
    replace (- y * - y + z * z) with (y * y + z * z) by ring.
    f_equal. f_equal; unfold Rdiv; ring. 
Qed.

(** The two rails mirror each other in the midplane [y = D / 2]: the right
    rail's field at the mirrored point is the left rail's field with its
    y-component negated, whatever the x-coordinates. *)
Theorem rails_mirror (g0 : Globals) (i x x' y z : R) :
  let g := updateCurrent i g0 in
  BFieldRight g (mkvec x' (dist_btwn_wires g - y) z) =
    (v <- BFieldLeft g (mkvec x y z) ;; Some (mkvec (c0 v) (- c1 v) (c2 v))) /\
  np_norm (BFieldRight g (mkvec x' (dist_btwn_wires g - y) z)) =
    np_norm (BFieldLeft g (mkvec x y z)).
Proof.
  intros g. pose proof (mirrored_rail_field g0 i x x' y z) as M. fold g in M.
  split; [exact M|].
  rewrite M. destruct (BFieldLeft g (mkvec x y z)) as [v|]; simpl; [|reflexivity].
  f_equal. unfold norm. simpl. f_equal. ring.
Qed.

(** On the midplane [y = D / 2] the two rails' fields add up to a vector
    along z alone: [-(i * D * k) / ((D / 2)² + z²)], with [k] the
    end-correction factor at [d = D / 2]. *)
Theorem combined_field_midplane (g0 : Globals) (i x z : R) :
  let g := updateCurrent i g0 in
  let D := dist_btwn_wires g0 in
  let L := rail_length g0 in
  norm (mkvec 0 (D / 2) z) <> 0 -> 0 < L ^ 2 + D / 2 ->
  np_add (BFieldLeft g (mkvec x (D / 2) z)) (BFieldRight g (mkvec x (D / 2) z)) =
  Some (mkvec 0 0
          (- (i * D * (1 + L / sqrt (L ^ 2 + D / 2)))
           / (D / 2 * (D / 2) + z * z))).
Proof.
  intros g D L N F.
  assert (Q : D / 2 * (D / 2) + z * z <> 0).
  { intros Q. apply N. apply norm_zero_iff. simpl. split; [reflexivity|].
    split; nra. }
  assert (E : D / 2 - D = - (D / 2)) by field.
  rewrite (BFieldLeft_components g (- i) (mkvec x (D / 2) z)) by trivial.
  rewrite (BFieldRight_components g i (mkvec x (D / 2) z));
    [|reflexivity|change (norm (mkvec 0 (D / 2 - D) z) <> 0);
                  now rewrite E, norm_flip_y].
  change (dist_btwn_wires g) with D. change (rail_length g) with L.
  cbn [c0 c1 c2]. rewrite E.
  replace (D - D / 2) with (D / 2) by field.
  rewrite (end_factor_some _ _ F). cbn [np_scale np_add bind].
  replace (- (D / 2) * - (D / 2) + z * z) with (D / 2 * (D / 2) + z * z) by ring.
  unfold scale, vadd. cbn [c0 c1 c2].
  set (k := 1 + L / sqrt (L ^ 2 + D / 2)).
  assert (Q' : D * D + z * z * 4 <> 0) by (intros H; apply Q; lra).
  f_equal. f_equal; field; exact Q'.
Qed.

Lemma combined_field_midplane_witness :
  np_add (BFieldLeft (updateCurrent 1 initial) (mkvec 0 (3 / 2) 1))
         (BFieldRight (updateCurrent 1 initial) (mkvec 0 (3 / 2) 1)) =
  Some (mkvec 0 0
          (- (1 * 3 * (1 + 4 / sqrt (4 ^ 2 + 3 / 2)))
           / (3 / 2 * (3 / 2) + 1 * 1))).
Proof.
  apply (combined_field_midplane initial 1 0 1).
  - intros H. apply norm_zero_iff in H. simpl in H. lra.
  - simpl. lra.
Defined.

(** Between the rails, on the projectile's axis, the rails' field has a
    z-component only (not a y-component), opposite in sign to the
    current. *)
Theorem field_between_rails (g0 : Globals) (i r : R) :
  let g := updateCurrent i g0 in
  0 <= rail_length g0 -> 0 < r < dist_btwn_wires g0 ->
  BFieldOnProjectile g r =
    Some (mkvec 0 0 (- (i * both_rails (rail_length g0) (dist_btwn_wires g0) r))) /\
  0 < both_rails (rail_length g0) (dist_btwn_wires g0) r.
Proof.
  intros g L0 Hr. split.
  - apply (BFieldOnProjectile_between g i r); trivial.
  - now apply both_rails_pos.
Qed.

Lemma field_between_rails_witness :
  BFieldOnProjectile (updateCurrent 1 initial) 1 =
    Some (mkvec 0 0 (- (1 * both_rails 4 3 1))) /\
  0 < both_rails 4 3 1.
Proof.
  apply (field_between_rails initial 1 1); simpl; lra.
Defined.

(** The force on the projectile points along the rails, towards positive
    x, for either sign of the current; its size is [i² * both_rails]. *)
Theorem force_on_projectile (g0 : Globals) (i r : R) :
  let g := updateCurrent i g0 in
  0 <= rail_length g0 -> 0 < r < dist_btwn_wires g0 ->
  np_cross_l (BFieldOnProjectile g r) (IProj g) =
    Some (mkvec (i * i * both_rails (rail_length g0) (dist_btwn_wires g0) r) 0 0) /\
  0 <= i * i * both_rails (rail_length g0) (dist_btwn_wires g0) r.
Proof.
  intros g L0 Hr. split.
  - rewrite (BFieldOnProjectile_between g i r) by trivial.
    cbn [np_cross_l bind]. unfold cross. simpl. f_equal. f_equal; ring.
  - pose proof (both_rails_pos _ _ _ L0 Hr). nra.
Qed.

Lemma force_on_projectile_witness :
  np_cross_l (BFieldOnProjectile (updateCurrent (-2) initial) 1)
             (IProj (updateCurrent (-2) initial)) =
    Some (mkvec (-2 * -2 * both_rails 4 3 1) 0 0) /\
  0 <= -2 * -2 * both_rails 4 3 1.
Proof.
  apply (force_on_projectile initial (-2) 1); simpl; lra.
Defined.

(** ** Further properties of sweep (b) *)

Lemma rail_field_in_plane (seg : Segment) (g0 : Globals) (i : R) (p v : vec) :
  seg <> Projectile -> c2 p = 0 ->
  BField seg (updateCurrent i g0) p = Some v -> c0 v = 0 /\ c1 v = 0.
Proof.
  intros Hs Hz.
  destruct (Req_EM_T (norm (reff seg (updateCurrent i g0) p)) 0) as [e|n].
  - rewrite (BField_on_axis _ _ _ e). intros [= <-]. now simpl.
  - destruct seg; [| |contradiction]; cbn [BField].
    + rewrite (BFieldLeft_components _ (- i) p) by trivial.
      destruct (end_factor _ _) as [k|]; [|discriminate].
      intros [= <-]. rewrite Hz. simpl. split; unfold Rdiv; ring.
    + rewrite (BFieldRight_components _ i p) by trivial.
      destruct (end_factor _ _) as [k|]; [|discriminate].
      intros [= <-]. rewrite Hz. simpl. split; unfold Rdiv; ring.
Qed.

Lemma BFieldOnProjectile_along_z (g0 : Globals) (i r : R) (v : vec) :
  BFieldOnProjectile (updateCurrent i g0) r = Some v -> c0 v = 0 /\ c1 v = 0.
Proof.
  unfold BFieldOnProjectile.
  pose proof (rail_field_in_plane LeftRail g0 i (mkvec 0 r 0)) as HL.
  pose proof (rail_field_in_plane RightRail g0 i (mkvec 0 r 0)) as HR.
  cbn [BField] in HL, HR.
  destruct (BFieldLeft _ _) as [a|]; [|discriminate].
  destruct (BFieldRight _ _) as [b|]; [|discriminate].
  destruct (HL a) as [A0 A1]; [discriminate|reflexivity|reflexivity|].
  destruct (HR b) as [B0 B1]; [discriminate|reflexivity|reflexivity|].
  intros [= <-]. simpl. rewrite A0, A1, B0, B1. split; ring.
Qed.

Lemma force_magnitude_is_scaled_field (g0 : Globals) (i r : R) :
  let g := updateCurrent i g0 in
  np_norm (np_cross_l (BFieldOnProjectile g r) (IProj g)) =
  (x <- np_norm (BFieldOnProjectile g r) ;; Some (Rabs i * x)).
Proof.
  intros g. pose proof (BFieldOnProjectile_along_z g0 i r) as H. fold g in H.
  destruct (BFieldOnProjectile g r) as [v|]; [|reflexivity].
  destruct (H v eq_refl) as [V0 V1]. cbn [np_cross_l np_norm bind]. f_equal.
  rewrite (norm_z_only v (c2 v) V0 V1 eq_refl).
  unfold cross. simpl. rewrite V0, V1.
  replace (mkvec (0 * 0 - c2 v * i) (c2 v * 0 - 0 * 0) (0 * i - 0 * 0))
    with (mkvec (- (i * c2 v)) 0 0) by (f_equal; ring).
  now rewrite norm_axis_x, Rabs_Ropp, Rabs_mult.
Qed.

(** In sweep (b) the force curve is the field curve times [|i_|], sample
    by sample, non-finite values included. *)
Theorem force_curve_is_scaled_field_curve (d_ i_ : R) (g0 : Globals) :
  let info := snd (plotProjectileInfo d_ i_ g0) in
  info_f info = map (fun b => x <- b ;; Some (Rabs i_ * x)) (info_b info).
Proof.
  unfold plotProjectileInfo. cbn [snd info_f info_b].
  rewrite map_map. apply map_ext. intros r.
  apply (force_magnitude_is_scaled_field (set_dist_btwn_wires d_ g0) i_ r).
Qed.

(** A sample of [np.linspace] lies between the two ends. *)
Lemma In_linspace_between (a b x : R) (n : nat) :
  In x (linspace a b n) ->
  exists t : R, 0 <= t <= 1 /\ x = a + t * (b - a).
Proof.
  unfold linspace. intros H. apply in_map_iff in H as (k & <- & Hk).
  apply in_seq in Hk. destruct (Nat.eq_dec (n - 1) 0) as [e|ne].
  - exists 0. split; [lra|]. replace k with 0%nat by lia. simpl. ring.
  - assert (P : 0 < INR (n - 1)) by (apply lt_0_INR; lia).
    assert (K : INR k <= INR (n - 1)) by (apply le_INR; lia).
    pose proof (pos_INR k) as K0.
    exists (INR k / INR (n - 1)). split.
    + split.
      * apply Rmult_le_pos; [exact K0|]. left. now apply Rinv_0_lt_compat.
      * apply (Rmult_le_reg_r (INR (n - 1))); [exact P|].
        unfold Rdiv. rewrite Rmult_assoc, Rinv_l by lra. lra.
    + field. lra.
Qed.

Lemma In_linspace_up (a b x : R) (n : nat) :
  a <= b -> In x (linspace a b n) -> a <= x <= b.
Proof.
  intros ab H. apply In_linspace_between in H as (t & [t0 t1] & ->). nra.
Qed.

Lemma In_linspace_down (a b x : R) (n : nat) :
  b <= a -> In x (linspace a b n) -> b <= x <= a.
Proof.
  intros ab H. apply In_linspace_between in H as (t & [t0 t1] & ->). nra.
Qed.

Lemma BField_finite_when (seg : Segment) (g : Globals) (r : vec) :
  norm (reff seg g r) = 0 \/ 0 < factor_L seg g ^ 2 + factor_d seg g r ->
  exists v, BField seg g r = Some v.
Proof.
  intros H. destruct (Req_EM_T (norm (reff seg g r)) 0) as [e|n].
  - rewrite (BField_on_axis seg g r e). eauto.
  - destruct H as [H|H]; [contradiction|].
    rewrite (BField_off_axis seg g r n), (end_factor_some _ _ H). simpl. eauto.
Qed.

Lemma BFieldOnProjectile_finite (g : Globals) (r : R) :
  0 <= rail_length g -> 0 < dist_btwn_wires g -> 0 <= r <= dist_btwn_wires g ->
  exists v, BFieldOnProjectile g r = Some v.
Proof.
  intros L0 D0 [r0 rD]. unfold BFieldOnProjectile.
  destruct (BField_finite_when LeftRail g (mkvec 0 r 0)) as [a Ha].
  { simpl. unfold reffLeft. simpl. destruct (Req_EM_T r 0) as [->|n].
    - left. apply norm_zeros.
    - right. nra. }
  destruct (BField_finite_when RightRail g (mkvec 0 r 0)) as [b Hb].
  { simpl. unfold reffRight. simpl.
    destruct (Req_EM_T r (dist_btwn_wires g)) as [->|n].
    - left. apply norm_zero_iff. simpl. repeat split; lra.
    - right. nra. }
  simpl in Ha, Hb. rewrite Ha, Hb. simpl. eauto.
Qed.

Lemma fold_left_finite (step : R) (f : list fl) :
  Forall (fun v => v <> None) f ->
  forall acc : R, exists s : R,
    fold_left (fun acc f_r => fl_add acc (x <- f_r ;; Some (x * step))) f (Some acc)
    = Some s.
Proof.
  induction 1 as [|v f Hv _ IH]; intros acc; simpl.
  - eauto.
  - destruct v as [x|]; [|contradiction]. simpl. apply IH.
Qed.

(** With a positive separation and a non-negative rail length every
    value of sweep (b) is finite: the field and force magnitudes at all
    100 samples, the two on the rails included, and the accumulator
    [F_total]. *)
Theorem projectile_sweep_finite (d_ i_ : R) (g0 : Globals) :
  0 < d_ -> 0 <= rail_length g0 ->
  let info := snd (plotProjectileInfo d_ i_ g0) in
  Forall (fun v => v <> None) (info_b info) /\
  Forall (fun v => v <> None) (info_f info) /\
  info_F_total info <> None.
Proof.
  intros D0 L0.
  set (g := updateCurrent i_ (set_dist_btwn_wires d_ g0)).
  assert (B : forall r, In r (linspace 0 d_ 100) ->
                        exists v, BFieldOnProjectile g r = Some v).
  { intros r Hr. apply In_linspace_up in Hr; [|lra].
    apply BFieldOnProjectile_finite; simpl; trivial. }
  assert (Fb : Forall (fun v => v <> None)
                 (map (fun r => np_norm (BFieldOnProjectile g r)) (linspace 0 d_ 100))).
  { apply Forall_map, Forall_forall. intros r Hr.
    destruct (B r Hr) as [v ->]. discriminate. }
  assert (Ff : Forall (fun v => v <> None)
                 (map (fun r => np_norm (np_cross_l (BFieldOnProjectile g r) (IProj g)))
                      (linspace 0 d_ 100))).
  { apply Forall_map, Forall_forall. intros r Hr.
    destruct (B r Hr) as [v ->]. discriminate. }
  cbv zeta. unfold plotProjectileInfo. cbn [snd info_b info_f info_F_total].
  fold g. split; [exact Fb|]. split; [exact Ff|].
  destruct (fold_left_finite (dist_btwn_wires g / INR 100) _ Ff 0) as [s Hs].
  intros E. pose proof (eq_trans (eq_sym Hs) E) as X. discriminate X.
Qed.

Lemma projectile_sweep_finite_witness :
  let info := snd (plotProjectileInfo 3 1 initial) in
  Forall (fun v => v <> None) (info_b info) /\
  Forall (fun v => v <> None) (info_f info) /\
  info_F_total info <> None.
Proof.
  apply (projectile_sweep_finite 3 1 initial); simpl; lra.
Defined.

Lemma BFieldOnProjectile_mirror (g0 : Globals) (i r : R) :
  let g := updateCurrent i g0 in
  np_norm (BFieldOnProjectile g (dist_btwn_wires g - r)) =
  np_norm (BFieldOnProjectile g r).
Proof.
  intros g. unfold BFieldOnProjectile.
  pose proof (mirrored_rail_field g0 i 0 0 r 0) as M1.
  pose proof (mirrored_rail_field g0 i 0 0 (dist_btwn_wires g - r) 0) as M2.
  cbv zeta in M1, M2. fold g in M1, M2.
  replace (dist_btwn_wires g - (dist_btwn_wires g - r)) with r in M2 by ring.
  rewrite M1, M2.
  destruct (BFieldLeft g (mkvec 0 (dist_btwn_wires g - r) 0)) as [u|],
           (BFieldLeft g (mkvec 0 r 0)) as [w|]; try reflexivity.
  cbn [np_add np_norm bind]. f_equal. unfold norm, vadd. simpl. f_equal. ring.
Qed.

Lemma sweep_b_nth (d_ i_ : R) (g0 : Globals) (k : nat) :
  (k < 100)%nat ->
  nth k (info_b (snd (plotProjectileInfo d_ i_ g0))) None =
  np_norm (BFieldOnProjectile (updateCurrent i_ (set_dist_btwn_wires d_ g0))
                              (INR k * d_ / 99)).
Proof.
  intros H. unfold plotProjectileInfo. cbn [snd info_b].
  etransitivity; [apply (nth_map_linspace (A:=R)); exact H|]. f_equal. f_equal.
  cbn [dist_btwn_wires updateCurrent set_dist_btwn_wires].
  change (100 - 1)%nat with 99%nat.
  replace (INR 99) with 99 by (rewrite INR_IZR_INZ; reflexivity).
  field.
Qed.

(** The field on the projectile, and the force on it, have the same
    magnitude at [r] and at the mirrored abscissa [dist_btwn_wires - r],
    for every geometry and current, non-finite values included. *)
Theorem projectile_field_mirror (g0 : Globals) (i r : R) :
  let g := updateCurrent i g0 in
  let r' := dist_btwn_wires g - r in
  np_norm (BFieldOnProjectile g r') = np_norm (BFieldOnProjectile g r) /\
  np_norm (np_cross_l (BFieldOnProjectile g r') (IProj g)) =
    np_norm (np_cross_l (BFieldOnProjectile g r) (IProj g)).
Proof.
  intros g r'.
  pose proof (BFieldOnProjectile_mirror g0 i r) as M. cbv zeta in M.
  fold g in M. fold r' in M.
  split; [exact M|].
  pose proof (force_magnitude_is_scaled_field g0 i r) as F1.
  pose proof (force_magnitude_is_scaled_field g0 i r') as F2.
  cbv zeta in F1, F2. fold g in F1, F2.
  now rewrite F1, F2, M.
Qed.

Lemma field_magnitude_at_left_rail (g : Globals) (i : R) :
  IRight g = mkvec i 0 0 -> 0 <= rail_length g -> 0 < dist_btwn_wires g ->
  np_norm (BFieldOnProjectile g 0) =
  Some (Rabs i * rail_term (rail_length g) (dist_btwn_wires g)).
Proof.
  intros HR L0 D0. unfold BFieldOnProjectile.
  rewrite BFieldLeft_at_left_rail.
  rewrite (BFieldRight_on_projectile g i 0) by (trivial; nra).
  cbn [np_add np_norm bind]. f_equal.
  pose proof (rail_term_pos _ _ L0 D0) as P.
  rewrite (norm_z_only _ (- (i * rail_term (rail_length g) (dist_btwn_wires g)))).
  - rewrite Rabs_Ropp, Rabs_mult. f_equal. apply Rabs_pos_eq. lra.
  - simpl. ring.
  - simpl. ring.
  - simpl. replace (dist_btwn_wires g - 0) with (dist_btwn_wires g) by ring. ring.
Qed.

Lemma sweep_b_closed (d_ i_ : R) (g0 : Globals) (k : nat) :
  0 < d_ -> 0 <= rail_length g0 -> (k < 100)%nat ->
  nth k (info_b (snd (plotProjectileInfo d_ i_ g0))) None =
  Some (Rabs i_ *
        if orb (Nat.eqb k 0) (Nat.eqb k 99)
        then rail_term (rail_length g0) d_
        else both_rails (rail_length g0) d_ (INR k * d_ / 99)).
Proof.
  intros D0 L0 K.
  set (g := updateCurrent i_ (set_dist_btwn_wires d_ g0)).
  assert (E0 : nth 0 (info_b (snd (plotProjectileInfo d_ i_ g0))) None =
               Some (Rabs i_ * rail_term (rail_length g0) d_)).
  { rewrite sweep_b_nth by lia. fold g.
    replace (INR 0 * d_ / 99) with 0 by (simpl; field).
    apply (field_magnitude_at_left_rail g i_); trivial. }
  destruct (Nat.eqb_spec k 0) as [->|K0]; [exact E0|].
  destruct (Nat.eqb_spec k 99) as [->|K99]; cbn [orb].
  - pose proof (BFieldOnProjectile_mirror
                  (set_dist_btwn_wires d_ g0) i_ 0) as Hm.
    cbv zeta in Hm. fold g in Hm.
    rewrite sweep_b_nth by lia. fold g.
    replace (INR 99 * d_ / 99) with (dist_btwn_wires g - 0)
      by (rewrite INR_IZR_INZ; simpl; field).
    rewrite Hm.
    apply (field_magnitude_at_left_rail g i_); trivial.
  - rewrite sweep_b_nth by lia. fold g.
    assert (1 <= INR k) by (apply (IZR_le_INR k 1); lia).
    assert (INR k <= 98) by (apply (INR_le_IZR k 98); lia).
    apply (field_magnitude_between g i_); trivial. simpl.
    split.
    + apply Rmult_lt_0_compat; [|lra]. apply Rmult_lt_0_compat; lra.
    + apply (Rmult_lt_reg_r 99); [lra|]. unfold Rdiv.
      rewrite Rmult_assoc, Rinv_l by lra. nra.
Qed.


(** The whole field curve of sweep (b) in closed form, for a positive
    separation and a non-negative rail length: the samples strictly
    between the rails see both rails, the first and the last sample lie on
    a rail and see the other rail only. *)
Theorem projectile_sweep_values (d_ i_ : R) (g0 : Globals) (k : nat) :
  0 < d_ -> 0 <= rail_length g0 -> (k < 100)%nat ->
  nth k (info_b (snd (plotProjectileInfo d_ i_ g0))) None =
  Some (Rabs i_ *
        if orb (Nat.eqb k 0) (Nat.eqb k 99)
        then rail_term (rail_length g0) d_
        else both_rails (rail_length g0) d_ (INR k * d_ / 99)).
Proof. exact (sweep_b_closed d_ i_ g0 k). Qed.

Lemma projectile_sweep_values_witness :
  nth 10 (info_b (snd (plotProjectileInfo 3 2 initial))) None =
  Some (Rabs 2 *
        if orb (Nat.eqb 10 0) (Nat.eqb 10 99)
        then rail_term 4 3
        else both_rails 4 3 (INR 10 * 3 / 99)).
Proof.
  apply (projectile_sweep_values 3 2 initial 10); simpl; try lra. lia.
Defined.

(** ** Properties of sweep (a) *)

Lemma In_grid_yz (ys zs : list R) (p : vec) :
  In p (grid_yz ys zs) -> c0 p = 0 /\ In (c1 p) ys /\ In (c2 p) zs.
Proof.
  unfold grid_yz. intros H.
  apply in_flat_map in H as (j & Hj & H).
  apply in_map_iff in H as (k & <- & Hk). simpl. auto.
Qed.

Lemma np_add_finite (a b : arr) :
  (exists u, a = Some u) -> (exists v, b = Some v) ->
  at1 (np_add a b) <> None /\ at2 (np_add a b) <> None.
Proof.
  intros [u ->] [v ->]. simpl. split; discriminate.
Qed.

(** Sweep (a) plots finite arrows only, provided the rail length left in
    the globals exceeds 1 in absolute value (the grid reaches [y = -1] and
    [y = d_ + 1], where the roots are taken of [L² - 1]). *)
Theorem rail_field_sweep_finite (d_ i_ : R) (g0 : Globals) :
  - 2 <= d_ -> 1 < rail_length g0 ^ 2 ->
  Forall (fun a => au a <> None /\ av a <> None) (snd (plotRailBField d_ i_ g0)).
Proof.
  intros D L. unfold plotRailBField. cbn [snd].
  set (g := updateCurrent i_ (set_dist_btwn_wires d_ g0)).
  apply Forall_map, Forall_forall. intros p Hp. cbn [au av].
  apply In_grid_yz in Hp as (_ & Hy & _).
  apply In_linspace_up in Hy; [|simpl; lra]. simpl in Hy.
  apply np_add_finite.
  - apply (BField_finite_when LeftRail g p). right. simpl. lra.
  - apply (BField_finite_when RightRail g p). right. simpl. lra.
Qed.

Lemma rail_field_sweep_finite_witness :
  Forall (fun a => au a <> None /\ av a <> None) (snd (plotRailBField 3 1 initial)).
Proof.
  apply (rail_field_sweep_finite 3 1 initial); simpl; lra.
Defined.

(** The rail length set by a repulsion callback stays in the globals: once
    it is 1 (the sliders' minimum), sweep (a) has arrows at [y = -1], and
    every one of them is non-finite, the end-correction factor dividing by
    [sqrt(1 - 1)]. *)
Theorem rail_field_sweep_after_unit_length (d_ i_ d' i' : R) (g0 : Globals) :
  let arrows :=
    snd (plotRailBField d_ i_ (fst (plotOpposingCurrentForces d' 1 i' g0))) in
  Forall (fun a => ax a = -1 -> au a = None /\ av a = None) arrows /\
  Exists (fun a => ax a = -1) arrows.
Proof.
  cbv zeta. unfold plotRailBField. cbn [snd].
  set (g := updateCurrent i_ (set_dist_btwn_wires d_ _)).
  assert (Lg : rail_length g = 1) by reflexivity.
  split.
  - apply Forall_map, Forall_forall. intros p _. cbn [ax au av]. intros Hy.
    assert (N : norm (reff LeftRail g p) <> 0).
    { intros N. apply norm_zero_iff in N. simpl in N. lra. }
    pose proof (BField_off_axis LeftRail g p N) as E. cbn [BField] in E.
    rewrite E. cbn [factor_L factor_d]. rewrite Lg, Hy.
    rewrite end_factor_none by lra. now simpl.
  - apply Exists_exists.
    set (y0 := -1 + INR 0 * ((dist_btwn_wires g + 1 - -1) / INR (10 - 1))).
    set (z0 := - dist_btwn_wires g / 2
               + INR 0 * ((dist_btwn_wires g / 2 - - dist_btwn_wires g / 2)
                          / INR (10 - 1))).
    eexists. split.
    + apply in_map. unfold grid_yz. apply in_flat_map. exists y0. split.
      * unfold linspace. apply in_map_iff. exists 0%nat. split; [reflexivity|].
        apply in_seq. lia.
      * apply in_map_iff. exists z0. split; [reflexivity|].
        unfold linspace. apply in_map_iff. exists 0%nat. split; [reflexivity|].
        apply in_seq. lia.
    + cbn [ax c1]. unfold y0. simpl. ring.
Qed.

(** ** Closed forms of the repulsion sweeps *)

Lemma cross_x_z (a b : R) : cross (mkvec a 0 0) (mkvec 0 0 b) = mkvec 0 (- (a * b)) 0.
Proof. unfold cross. simpl. f_equal; ring. Qed.

Lemma cross_x_zeros (a : R) : cross (mkvec a 0 0) zeros = mkvec 0 0 0.
Proof. unfold cross, zeros. simpl. f_equal; ring. Qed.

(** Sweep (c): the rails repel each other.  For a nonzero separation the
    force on every sample of the left rail is [(0, -i²/d)], on every
    sample of the right rail [(0, +i²/d)]: equal, opposite, and the same
    all along the rail. *)
Theorem rails_repel (d_ l_ i_ : R) (g0 : Globals) :
  d_ <> 0 ->
  let g := updateCurrent i_ (set_rail_length l_ (set_dist_btwn_wires d_ g0)) in
  snd (plotOpposingCurrentForces d_ l_ i_ g0) =
    map (fun p => mkarrow (c0 p) (c1 p) (Some 0) (Some (- (i_ * i_ / d_))))
        (left_rail_points g)
    ++
    map (fun p => mkarrow (c0 p) (c1 p) (Some 0) (Some (i_ * i_ / d_)))
        (right_rail_points g).
Proof.
  intros Hd g.
  assert (Dg : dist_btwn_wires g = d_) by reflexivity.
  unfold plotOpposingCurrentForces. cbn [snd]. fold g. f_equal.
  - apply map_ext_in. intros p Hp. apply on_left_rail in Hp as [H1 H2].
    assert (N : norm (mkvec 0 (0 - d_) 0) <> 0).
    { rewrite norm_axis_y. apply Rabs_no_R0. lra. }
    rewrite OpposingLocal_BFieldRight_plain;
      unfold reffRight; rewrite H1, H2, Dg; [|exact N].
    unfold Spec.infiniteWire, Spec.rHat.
    change (IRight g) with (mkvec i_ 0 0). change (ILeft g) with (mkvec (- i_) 0 0).
    rewrite (wire_x_components i_ (0 - d_) 0 N).
    unfold force_arrow, np_cross_r, at0, at1, cross. cbn [bind option_map c0 c1 c2].
    rewrite H1. f_equal; f_equal; field; exact Hd.
  - apply map_ext_in. intros p Hp. apply on_right_rail in Hp as [H1 H2].
    rewrite Dg in H1.
    assert (N : norm (mkvec 0 d_ 0) <> 0).
    { rewrite norm_axis_y. now apply Rabs_no_R0. }
    rewrite OpposingLocal_BFieldLeft_plain;
      unfold reffLeft; rewrite H1, H2; [|exact N].
    unfold Spec.infiniteWire, Spec.rHat.
    change (IRight g) with (mkvec i_ 0 0). change (ILeft g) with (mkvec (- i_) 0 0).
    rewrite (wire_x_components (- i_) d_ 0 N).
    unfold force_arrow, np_cross_r, at0, at1, cross. cbn [bind option_map c0 c1 c2].
    rewrite H1. f_equal; f_equal; field; exact Hd.
Qed.

Lemma rails_repel_witness :
  snd (plotOpposingCurrentForces 3 4 2 initial) =
    map (fun p => mkarrow (c0 p) (c1 p) (Some 0) (Some (- (2 * 2 / 3))))
        (grid_xy (linspace 4 0 20) (linspace 0 0 10))
    ++
    map (fun p => mkarrow (c0 p) (c1 p) (Some 0) (Some (2 * 2 / 3)))
        (grid_xy (linspace 4 0 20) (linspace 3 3 10)).
Proof.
  assert (H : (3 : R) <> 0) by lra.
  exact (rails_repel 3 4 2 initial H).
Defined.

Lemma BFieldProj_value (g : Globals) (i : R) (p : vec) :
  IProj g = mkvec 0 i 0 -> c0 p <> 0 -> 0 < dist_btwn_wires g ^ 2 + c0 p ->
  BFieldProj g p = Some (mkvec 0 0 (- (i * rail_term (dist_btwn_wires g) (c0 p)))).
Proof.
  intros HI Hx HF.
  assert (N : norm (reff Projectile g p) <> 0).
  { intros N. apply norm_zero_iff in N. simpl in N. tauto. }
  change (BFieldProj g p) with (BField Projectile g p).
  rewrite (BField_off_axis Projectile g p N). cbn [current reff factor_L factor_d].
  rewrite HI, (end_factor_some _ _ HF). cbn [np_scale bind]. unfold reffProj in *.
  pose proof (norm_sqr (mkvec (c0 p) 0 0)) as S. simpl in S.
  set (n := norm (mkvec (c0 p) 0 0)) in *.
  assert (S' : n * n = c0 p * c0 p) by lra.
  assert (R0 : 0 < sqrt (dist_btwn_wires g ^ 2 + c0 p)) by now apply sqrt_lt_R0.
  unfold scale, divide, cross, rail_term. cbn [c0 c1 c2].
  set (s := sqrt _) in *.
  assert (N' : n <> 0) by exact N.
  f_equal. f_equal; try (field; repeat split; (exact N' || lra)).
  replace ((0 * (0 / n) - i * (c0 p / n)) / n) with (- (i * c0 p / (n * n)))
    by (field; exact N').
  rewrite S'. field. split; [lra|exact Hx].
Qed.

(** Sweep (d): the projectile's field pushes the rails apart.  For a
    non-negative rail length the force at a sample [x > 0] is
    [(0, -i² * k / x)] on the left rail and [(0, +i² * k / x)] on the right
    rail, with [k = 1 + d / sqrt(d² + x)]; at the sample [x = 0] it is
    zero. *)
Theorem projectile_pushes_rails_apart (d_ l_ i_ : R) (g0 : Globals) :
  0 <= l_ ->
  let g := updateCurrent i_ (set_rail_length l_ (set_dist_btwn_wires d_ g0)) in
  let push := fun x : R =>
    if Req_EM_T x 0 then 0 else i_ * i_ * rail_term d_ x in
  snd (plotProjectileRepulsionForce d_ l_ i_ g0) =
    map (fun p => mkarrow (c0 p) (c1 p) (Some 0) (Some (- push (c0 p))))
        (left_rail_points g)
    ++
    map (fun p => mkarrow (c0 p) (c1 p) (Some 0) (Some (push (c0 p))))
        (right_rail_points g).
Proof.
  intros L0 g push.
  assert (B : forall p, 0 <= c0 p ->
            BFieldProj g p =
            if Req_EM_T (c0 p) 0 then Some zeros
            else Some (mkvec 0 0 (- (i_ * rail_term d_ (c0 p))))).
  { intros p Hp. destruct (Req_EM_T (c0 p) 0) as [e|n].
    - apply (BField_on_axis Projectile). apply norm_zero_iff. simpl. tauto.
    - apply (BFieldProj_value g i_ p); [reflexivity|exact n|].
      change (dist_btwn_wires g) with d_. nra. }
  assert (X : forall ys p, In p (grid_xy (linspace l_ 0 20) ys) -> 0 <= c0 p).
  { intros ys p Hp. apply In_grid_xy in Hp as (Hx & _).
    apply In_linspace_down in Hx; lra. }
  unfold plotProjectileRepulsionForce. cbn [snd]. fold g. f_equal.
  - apply map_ext_in. intros p Hp. rewrite (B p (X _ p Hp)).
    change (ILeft g) with (mkvec (- i_) 0 0). unfold push, force_arrow.
    destruct (Req_EM_T (c0 p) 0) as [e|n]; cbn [np_cross_r bind at0 at1 option_map].
    + rewrite cross_x_zeros. cbn [c0 c1]. do 2 f_equal. ring.
    + rewrite cross_x_z. cbn [c0 c1]. do 2 f_equal. ring.
  - apply map_ext_in. intros p Hp. rewrite (B p (X _ p Hp)).
    change (IRight g) with (mkvec i_ 0 0). unfold push, force_arrow.
    destruct (Req_EM_T (c0 p) 0) as [e|n]; cbn [np_cross_r bind at0 at1 option_map].
    + rewrite cross_x_zeros. reflexivity.
    + rewrite cross_x_z. cbn [c0 c1]. do 2 f_equal. ring.
Qed.

Lemma projectile_pushes_rails_apart_witness :
  snd (plotProjectileRepulsionForce 3 4 1 initial) =
    map (fun p => mkarrow (c0 p) (c1 p) (Some 0)
                    (Some (- (if Req_EM_T (c0 p) 0 then 0
                              else 1 * 1 * rail_term 3 (c0 p)))))
        (grid_xy (linspace 4 0 20) (linspace 0 0 10))
    ++
    map (fun p => mkarrow (c0 p) (c1 p) (Some 0)
                    (Some (if Req_EM_T (c0 p) 0 then 0
                           else 1 * 1 * rail_term 3 (c0 p))))
        (grid_xy (linspace 4 0 20) (linspace 3 3 10)).
Proof.
  assert (H : 0 <= 4) by lra.
  exact (projectile_pushes_rails_apart 3 4 1 initial H).
Defined.

Lemma push_nonneg (i t : R) : 0 < t -> 0 <= i * i * t.
Proof. intros H. assert (0 <= i * i) by nra. nra. Qed.

Lemma repulsion_term_from_projectile (g : Globals) (i d x : R) :
  ILeft g = mkvec (- i) 0 0 -> IProj g = mkvec 0 i 0 -> dist_btwn_wires g = d ->
  0 <= d -> 0 <= x ->
  np_norm (np_cross_r (ILeft g) (BFieldProj g (mkvec x 0 0))) =
  Some (if Req_EM_T x 0 then 0 else i * i * rail_term d x).
Proof.
  intros HL HP HD D0 X0. rewrite HL.
  destruct (Req_EM_T x 0) as [e|n].
  - rewrite (BField_on_axis Projectile g (mkvec x 0 0) : _ -> BFieldProj g _ = _).
    + cbn [np_cross_r np_norm bind]. rewrite cross_x_zeros. f_equal. apply norm_zeros.
    + apply norm_zero_iff. simpl. tauto.
  - rewrite (BFieldProj_value g i (mkvec x 0 0) HP);
      [|exact n|rewrite HD; simpl; nra].
    cbn [np_cross_r np_norm bind c0]. rewrite cross_x_z, norm_axis_y, HD. f_equal.
    replace (- (- i * - (i * rail_term d x))) with (- (i * i * rail_term d x)) by ring.
    rewrite Rabs_Ropp. apply Rabs_pos_eq. apply push_nonneg.
    apply rail_term_pos; lra.
Qed.

Lemma repulsion_term_from_rail (g : Globals) (i d l x : R) :
  ILeft g = mkvec (- i) 0 0 -> IRight g = mkvec i 0 0 ->
  dist_btwn_wires g = d -> rail_length g = l -> 0 < d -> 0 <= l ->
  np_norm (np_cross_r (ILeft g) (BFieldRight g (mkvec x 0 0))) =
  Some (i * i * rail_term l d).
Proof.
  intros HL HR HD HLn D0 L0. rewrite HL.
  change (BFieldRight g (mkvec x 0 0)) with (BFieldRight g (mkvec 0 0 0)).
  rewrite (BFieldRight_on_projectile g i 0 HR) by (rewrite ?HD, ?HLn; nra).
  cbn [np_cross_r np_norm bind]. rewrite cross_x_z, norm_axis_y, HD, HLn. f_equal.
  replace (d - 0) with d by ring.
  replace (- (- i * (- i * rail_term l d))) with (- (i * i * rail_term l d)) by ring.
  rewrite Rabs_Ropp. apply Rabs_pos_eq. apply push_nonneg.
  now apply rail_term_pos.
Qed.

Lemma calcTotalRailRepulsion_closed (d_ l_ i_ : R) (g0 : Globals) :
  0 < d_ -> 0 <= l_ ->
  snd (snd (calcTotalRailRepulsion d_ l_ i_ g0)) =
  map (fun x => Some ((if Req_EM_T x 0 then 0 else i_ * i_ * rail_term d_ x)
                      + i_ * i_ * rail_term l_ d_))
      (linspace l_ 0 100).
Proof.
  intros D0 L0. unfold calcTotalRailRepulsion. cbn [snd].
  set (g := updateCurrent i_ (set_rail_length l_ (set_dist_btwn_wires d_ g0))).
  apply map_ext_in. intros x Hx. apply In_linspace_down in Hx; [|exact L0].
  rewrite (repulsion_term_from_projectile g i_ d_ x); try reflexivity; try lra.
  rewrite (repulsion_term_from_rail g i_ d_ l_ x); try reflexivity; try lra.
Qed.

(** Sweep (e) in closed form, for a positive separation and a
    non-negative rail length: at a sample [x > 0] the plotted sum is
    [i² * (1 + d / sqrt(d² + x)) / x] from the projectile plus the constant
    [i² * (1 + l / sqrt(l² + d)) / d] from the right rail; at the sample
    [x = 0] only the constant is left. *)
Theorem total_repulsion_values (d_ l_ i_ : R) (g0 : Globals) :
  0 < d_ -> 0 <= l_ ->
  snd (snd (calcTotalRailRepulsion d_ l_ i_ g0)) =
  map (fun x => Some ((if Req_EM_T x 0 then 0 else i_ * i_ * rail_term d_ x)
                      + i_ * i_ * rail_term l_ d_))
      (linspace l_ 0 100).
Proof. exact (calcTotalRailRepulsion_closed d_ l_ i_ g0). Qed.

Lemma total_repulsion_values_witness :
  snd (snd (calcTotalRailRepulsion 3 4 1 initial)) =
  map (fun x => Some ((if Req_EM_T x 0 then 0 else 1 * 1 * rail_term 3 x)
                      + 1 * 1 * rail_term 4 3))
      (linspace 4 0 100).
Proof.
  apply (total_repulsion_values 3 4 1 initial); lra.
Defined.

Lemma rail_term_antitone (L x x' : R) :
  0 <= L -> 0 < x -> x <= x' -> rail_term L x' <= rail_term L x.
Proof.
  intros L0 x0 xx.
  rewrite !rail_term_split by nra.
  assert (S : 0 < sqrt (L ^ 2 + x)) by (apply sqrt_lt_R0; nra).
  assert (SS : sqrt (L ^ 2 + x) <= sqrt (L ^ 2 + x')) by (apply sqrt_le_1_alt; lra).
  assert (I1 : / x' <= / x) by (apply Rinv_le_contravar; lra).
  assert (I2 : / sqrt (L ^ 2 + x') <= / sqrt (L ^ 2 + x))
    by (apply Rinv_le_contravar; lra).
  assert (P1 : 0 < / x') by (apply Rinv_0_lt_compat; lra).
  assert (P2 : 0 < / sqrt (L ^ 2 + x')) by (apply Rinv_0_lt_compat; lra).
  assert (M : / x' * / sqrt (L ^ 2 + x') <= / x * / sqrt (L ^ 2 + x))
    by (apply Rmult_le_compat; lra).
  nra.
Qed.

(** The curve of sweep (e) grows as the samples approach the projectile
    (indices 0 to 98, [x] running from [l_] down towards 0), and the last
    sample, at [x = 0] where the projectile's field is the zero vector,
    falls below all of them. *)
Theorem total_repulsion_shape (d_ l_ i_ : R) (g0 : Globals) :
  0 < d_ -> 0 < l_ -> i_ <> 0 ->
  let y := snd (snd (calcTotalRailRepulsion d_ l_ i_ g0)) in
  non_decreasing_on y 0 98 /\
  forall k : nat, (k <= 98)%nat ->
    exists a b : R, nth 99 y None = Some a /\ nth k y None = Some b /\ a < b.
Proof.
  intros D0 L0 I0 y.
  set (xk := fun k : nat => l_ * (1 - INR k / 99)).
  assert (Y : forall k, (k < 100)%nat ->
            nth k y None =
            Some ((if Req_EM_T (xk k) 0 then 0 else i_ * i_ * rail_term d_ (xk k))
                  + i_ * i_ * rail_term l_ d_)).
  { intros k Hk. unfold y. rewrite calcTotalRailRepulsion_closed by lra.
    etransitivity; [apply (nth_map_linspace (A:=R)); exact Hk|].
    change (100 - 1)%nat with 99%nat.
    replace (INR 99) with 99 by (rewrite INR_IZR_INZ; reflexivity).
    replace (l_ + INR k * ((0 - l_) / 99)) with (xk k) by (unfold xk; field).
    reflexivity. }
  assert (Xpos : forall k, (k <= 98)%nat -> 0 < xk k).
  { intros k Hk. assert (INR k <= 98) by (apply (INR_le_IZR k 98); lia).
    unfold xk. apply Rmult_lt_0_compat; lra. }
  assert (Yin : forall k, (k <= 98)%nat ->
            nth k y None =
            Some (i_ * i_ * rail_term d_ (xk k) + i_ * i_ * rail_term l_ d_)).
  { intros k Hk. rewrite Y by lia. pose proof (Xpos k Hk).
    destruct (Req_EM_T (xk k) 0); [lra|reflexivity]. }
  assert (I2 : 0 < i_ * i_) by nra.
  split.
  - intros k j _ Hkj Hj. rewrite !Yin by lia. simpl.
    assert (INR k <= INR j) by (now apply le_INR).
    assert (rail_term d_ (xk k) <= rail_term d_ (xk j)).
    { apply rail_term_antitone; [lra|apply Xpos; lia|]. unfold xk. nra. }
    nra.
  - intros k Hk. rewrite (Yin k Hk), (Y 99%nat) by lia.
    assert (E : xk 99%nat = 0).
    { unfold xk. rewrite INR_IZR_INZ. simpl. field. }
    destruct (Req_EM_T (xk 99%nat) 0) as [_|n]; [|contradiction].
    do 2 eexists. split; [reflexivity|]. split; [reflexivity|].
    assert (0 < rail_term d_ (xk k)) by (apply rail_term_pos; [lra|now apply Xpos]).
    nra.
Qed.

Lemma total_repulsion_shape_witness :
  let y := snd (snd (calcTotalRailRepulsion 3 4 1 initial)) in
  non_decreasing_on y 0 98 /\
  forall k : nat, (k <= 98)%nat ->
    exists a b : R, nth 99 y None = Some a /\ nth k y None = Some b /\ a < b.
Proof.
  apply (total_repulsion_shape 3 4 1 initial); lra.
Defined.

(** ** Magnitude of a segment's field, and reversal of the current *)

Lemma norm_cross_perpendicular (a b : vec) :
  dot a b = 0 -> norm (cross a b) = norm a * norm b.
Proof.
  intros H. unfold norm.
  rewrite <- sqrt_mult by apply sum_sqr_nonneg. f_equal.
  transitivity
    ((c0 a * c0 a + c1 a * c1 a + c2 a * c2 a)
     * (c0 b * c0 b + c1 b * c1 b + c2 b * c2 b) - dot a b * dot a b).
  - unfold dot, cross. simpl. ring.
  - rewrite H. ring.
Qed.

Lemma norm_divide (a : vec) (n : R) : 0 < n -> norm (divide a n) = norm a / n.
Proof.
  intros H. change (divide a n) with (scale a (/ n)).
  rewrite norm_scale, Rabs_pos_eq; [reflexivity|].
  left. now apply Rinv_0_lt_compat.
Qed.

Lemma current_perpendicular (seg : Segment) (g0 : Globals) (i : R) (r : vec) :
  dot (current seg (updateCurrent i g0)) (reff seg (updateCurrent i g0) r) = 0.
Proof. destruct seg; unfold dot; simpl; ring. Qed.

Lemma norm_current (seg : Segment) (g0 : Globals) (i : R) :
  norm (current seg (updateCurrent i g0)) = Rabs i.
Proof.
  destruct seg; simpl.
  - now rewrite norm_axis_x, Rabs_Ropp.
  - now rewrite norm_axis_x.
  - now rewrite norm_axis_y.
Qed.

(** Off the axis and where the end-correction factor [k] is finite, the
    magnitude of each segment's field is [|i| * |k| / r], with [r] the norm
    of the displacement the function builds: the [1 / r] law of a straight
    wire times the factor. *)
Theorem field_magnitude_law (seg : Segment) (g0 : Globals) (i : R) (r : vec) :
  let g := updateCurrent i g0 in
  let L := factor_L seg g in
  let d := factor_d seg g r in
  norm (reff seg g r) <> 0 -> 0 < L ^ 2 + d ->
  np_norm (BField seg g r) =
  Some (Rabs i * Rabs (1 + L / sqrt (L ^ 2 + d)) / norm (reff seg g r)).
Proof.
  intros g L d N F.
  assert (P : 0 < norm (reff seg g r)).
  { pose proof (sqrt_pos (c0 (reff seg g r) * c0 (reff seg g r)
                          + c1 (reff seg g r) * c1 (reff seg g r)
                          + c2 (reff seg g r) * c2 (reff seg g r))) as Q.
    fold (norm (reff seg g r)) in Q. lra. }
  rewrite (BField_off_axis seg g r N). fold L d.
  rewrite (end_factor_some _ _ F). cbn [np_scale np_norm bind]. f_equal.
  rewrite norm_scale, norm_divide, cross_divide_r, norm_divide by exact P.
  rewrite norm_cross_perpendicular by apply current_perpendicular.
  unfold g. rewrite norm_current. fold g. field. exact N.
Qed.

Lemma field_magnitude_law_witness :
  np_norm (BField LeftRail (updateCurrent 2 initial) (mkvec 0 3 4)) =
  Some (Rabs 2 * Rabs (1 + 4 / sqrt (4 ^ 2 + 3))
        / norm (reff LeftRail (updateCurrent 2 initial) (mkvec 0 3 4))).
Proof.
  apply (field_magnitude_law LeftRail initial 2 (mkvec 0 3 4)).
  - intros H. apply norm_zero_iff in H. simpl in H. lra.
  - simpl. lra.
Defined.

(** Reversing the current reverses every field vector and leaves every
    force vector as it was: the gun pushes the same way for either
    polarity. *)
Theorem current_reversal (g0 : Globals) (i r : R) (seg src : Segment) (p : vec) :
  let g := updateCurrent i g0 in
  let g' := updateCurrent (- i) g0 in
  BField seg g' p = (v <- BField seg g p ;; Some (scale v (-1))) /\
  np_cross_l (BFieldOnProjectile g' r) (IProj g') =
    np_cross_l (BFieldOnProjectile g r) (IProj g) /\
  np_cross_r (current seg g') (BField src g' p) =
    np_cross_r (current seg g) (BField src g p).
Proof.
  intros g g'. unfold g, g'.
  replace (- i) with (-1 * i) by ring.
  pose proof (current_scaled Projectile g0 (-1) i) as EP. simpl in EP.
  split; [|split].
  - apply BField_scaled.
  - rewrite BFieldOnProjectile_scaled.
    cbn [IProj updateCurrent]. cbn [IProj updateCurrent] in EP. rewrite EP.
    destruct (BFieldOnProjectile (updateCurrent i g0) r);
      cbn [np_cross_l bind]; [|reflexivity].
    rewrite cross_scale_l, cross_scale_r, scale_twice. f_equal.
    unfold scale. destruct (cross v (mkvec 0 i 0)). simpl. f_equal; ring.
  - rewrite BField_scaled, current_scaled.
    destruct (BField src (updateCurrent i g0) p);
      cbn [np_cross_r bind]; [|reflexivity].
    rewrite cross_scale_l, cross_scale_r, scale_twice. f_equal.
    unfold scale. destruct (cross _ v). simpl. f_equal; ring.
Qed.

(** ** The valley of sweep (b) for every geometry *)

(** For every positive separation, non-negative rail length and current,
    the field magnitudes of sweep (b) fall over the samples 1 to 49 (from
    the left rail to the midpoint) and rise over the samples 50 to 98
    (from the midpoint to the right rail), and the first sample stays
    below the second when the current is not zero. *)
Theorem sweep_b_valley_every_geometry (d_ i_ : R) (g0 : Globals) :
  0 < d_ -> 0 <= rail_length g0 ->
  let b := info_b (snd (plotProjectileInfo d_ i_ g0)) in
  non_increasing_on b 1 49 /\ non_decreasing_on b 50 98 /\
  (i_ <> 0 ->
   exists b0 b1 : R, nth 0 b None = Some b0 /\ nth 1 b None = Some b1 /\ b0 < b1).
Proof.
  intros D0 L0 b.
  set (L := rail_length g0).
  set (xk := fun k : nat => INR k * d_ / 99).
  assert (Bk : forall k, (1 <= k)%nat -> (k <= 98)%nat ->
            nth k b None = Some (Rabs i_ * both_rails L d_ (xk k))).
  { intros k K1 K2. unfold b. rewrite sweep_b_closed by (trivial; lia).
    destruct (Nat.eqb_spec k 0) as [->|_]; [lia|].
    destruct (Nat.eqb_spec k 99) as [->|_]; [lia|]. reflexivity. }
  assert (A : 0 <= Rabs i_) by apply Rabs_pos.
  assert (X : forall k j, (1 <= k)%nat -> (k <= j)%nat ->
            0 < xk k /\ xk k <= xk j).
  { intros k j K1 Kj. assert (1 <= INR k) by (apply (IZR_le_INR k 1); lia).
    assert (INR k <= INR j) by (now apply le_INR). unfold xk. split.
    - apply Rmult_lt_0_compat; [|lra]. apply Rmult_lt_0_compat; lra.
    - apply Rmult_le_compat_r; [lra|]. apply Rmult_le_compat_r; lra. }
  assert (Lo : forall k, (k <= 49)%nat -> xk k <= d_ - xk k).
  { intros k K. assert (INR k <= 49) by (apply (INR_le_IZR k 49); lia).
    unfold xk. apply (Rmult_le_reg_r 99); [lra|]. 
    replace (INR k * d_ / 99 * 99) with (INR k * d_) by field.
    replace ((d_ - INR k * d_ / 99) * 99) with (99 * d_ - INR k * d_) by field.
    nra. }
  assert (Hi : forall k, (50 <= k)%nat -> d_ - xk k <= xk k).
  { intros k K. assert (50 <= INR k) by (apply (IZR_le_INR k 50); lia).
    unfold xk. apply (Rmult_le_reg_r 99); [lra|].
    replace (INR k * d_ / 99 * 99) with (INR k * d_) by field.
    replace ((d_ - INR k * d_ / 99) * 99) with (99 * d_ - INR k * d_) by field.
    nra. }
  assert (Up : forall k, (k <= 98)%nat -> 0 < d_ - xk k).
  { intros k K. assert (INR k <= 98) by (apply (INR_le_IZR k 98); lia).
    unfold xk. apply (Rmult_lt_reg_r 99); [lra|].
    replace ((d_ - INR k * d_ / 99) * 99) with (99 * d_ - INR k * d_) by field.
    nra. }
  split; [|split].
  - intros k j K1 Kj J. rewrite !Bk by lia. simpl.
    destruct (X k j K1 Kj) as [x0 xx].
    apply Rmult_le_compat_l; [exact A|].
    apply both_rails_antitone; trivial. apply Lo. lia.
  - intros k j K1 Kj J. rewrite !Bk by lia. simpl.
    apply Rmult_le_compat_l; [exact A|].
    destruct (X k j ltac:(lia) Kj) as [x0 xx].
    rewrite <- (both_rails_sym L d_ (xk j)), <- (both_rails_sym L d_ (xk k)).
    apply both_rails_antitone; trivial.
    + apply Up. lia.
    + lra.
    + pose proof (Hi k ltac:(lia)). lra.
  - intros I0.
    assert (B0 : nth 0 b None = Some (Rabs i_ * rail_term L d_)).
    { unfold b. rewrite sweep_b_closed by (trivial; lia). reflexivity. }
    rewrite B0, (Bk 1%nat) by lia.
    do 2 eexists. split; [reflexivity|]. split; [reflexivity|].
    assert (Ai : 0 < Rabs i_) by now apply Rabs_pos_lt.
    apply Rmult_lt_compat_l; [exact Ai|].
    assert (x1 : xk 1%nat = d_ / 99) by (unfold xk; simpl; field).
    rewrite x1. unfold both_rails.
    pose proof (rail_term_upper L d_ L0 D0) as U.
    assert (P99 : 0 < d_ / 99) by (apply Rdiv_lt_0_compat; lra).
    pose proof (rail_term_lower L (d_ / 99) L0 P99) as Lw.
    assert (0 < rail_term L (d_ - d_ / 99)) by (apply rail_term_pos; [exact L0|lra]).
    assert (E1 : / (d_ / 99) = 99 / d_) by (field; lra).
    assert (E2 : 2 / d_ < 99 / d_).
    { unfold Rdiv. apply Rmult_lt_compat_r; [now apply Rinv_0_lt_compat|lra]. }
    lra.
Qed.

Lemma sweep_b_valley_every_geometry_witness :
  let b := info_b (snd (plotProjectileInfo 5 2 initial)) in
  non_increasing_on b 1 49 /\ non_decreasing_on b 50 98 /\
  (2 <> 0 ->
   exists b0 b1 : R, nth 0 b None = Some b0 /\ nth 1 b None = Some b1 /\ b0 < b1).
Proof.
  apply (sweep_b_valley_every_geometry 5 2 initial); simpl; lra.
Defined.
